(** * viterbi.py: all-paths Viterbi alignment of two sequences

    A shallow embedding of [viterbi.py] (classes [ViterbiCell], [ViterbiPath]
    and [ViterbiAligner]) and the properties of its grid sweep and of its
    queries.

    Conventions of the embedding.
    - Python numbers (the scores) are an abstract type [num] with the
      operations the module uses: the literals [1] and [0.5], [log], [+],
      [*] and the builtin [cmp]; [!=] on scores is [cmp] not answering
      equal.  Laws of the numbers are assumed only where a theorem says so
      ([NumericOrder], [NumericIdentity]); binary64 floats and exact
      rationals are the instances used to run the code.
    - Sequence elements are a countable type [elt]; an element or [None]
      is [option elt].
    - A cell object is identified by its grid position.  The fields set by
      [ViterbiCell.__init__] and never assigned again form [CellRef], which
      is what a path's [cells] list holds; the one mutable attribute,
      [paths], is kept in the grid ([ViterbiCell]).  This breaks the object
      cycle cell -> path -> cell of the source.
    - An uncaught exception is the result [None]. *)

From Stdlib Require Import Floats.PrimFloat.
From Stdlib Require Import QArith.
From stdpp Require Import gmap strings list fin_maps sorting.

(** ** Numbers *)

(** The operations of Python numbers that the module uses. *)
Class Numeric (num : Type) := {
  num_one : num;                       (* the literal 1 *)
  num_half : num;                      (* the literal 0.5 *)
  log : num -> num;                    (* numpy.log or math.log *)
  num_add : num -> num -> num;         (* x+y *)
  num_mul : num -> num -> num;         (* x*y *)
  cmp : num -> num -> comparison       (* builtin cmp(x, y): Lt is -1, Eq is 0, Gt is 1 *)
}.

(** [x != y] on numbers. *)
Definition num_ne {num : Type} {NUM : Numeric num} (x y : num) : bool :=
  match cmp x y with Eq => false | _ => true end.

(** [cmp] is a total preorder (no NaN among the scores). *)
Class NumericOrder (num : Type) {NUM : Numeric num} : Prop := {
  cmp_refl : forall x : num, cmp x x = Eq;
  cmp_antisym : forall x y : num, cmp y x = CompOpp (cmp x y);
  cmp_le_trans : forall x y z : num, cmp x y <> Gt -> cmp y z <> Gt -> cmp x z <> Gt
}.

(** [log(1)] is neutral for [+] and [1] is neutral for [*], up to [cmp]. *)
Class NumericIdentity (num : Type) {NUM : Numeric num} : Prop := {
  add_log_one_l : forall x : num, cmp (num_add (log num_one) x) x = Eq;
  add_log_one_r : forall x : num, cmp (num_add x (log num_one)) x = Eq;
  mul_one_l : forall x : num, cmp (num_mul num_one x) x = Eq;
  mul_one_r : forall x : num, cmp (num_mul x num_one) x = Eq
}.

(** ** list.sort *)

(** [list.sort(cmp=c)] is a stable sort: for a [c] that is a total preorder
    its result is the one sorted list in which equal elements keep their
    order, which stable insertion computes. *)
Fixpoint insert_stable {A} (c : A -> A -> comparison) (x : A) (l : list A) : list A :=
  match l with
  | [] => [x]
  | y :: l' =>
      match c x y with
      | Gt => y :: insert_stable c x l'
      | _ => x :: l
      end
  end.

Definition stable_sort {A} (c : A -> A -> comparison) (l : list A) : list A :=
  foldr (insert_stable c) [] l.

(** [l.sort(cmp=c, reverse=rev)].  CPython keeps a reverse sort stable by
    reversing the list, sorting it forward and reversing the result. *)
Definition list_sort {A} (c : A -> A -> comparison) (rev : bool) (l : list A) : list A :=
  if rev then reverse (stable_sort c (reverse l)) else stable_sort c l.

(** The laws of a comparison function that is a total preorder. *)
Class CmpPreorder {A : Type} (c : A -> A -> comparison) : Prop := {
  c_refl : forall x, c x x = Eq;
  c_antisym : forall x y, c y x = CompOpp (c x y);
  c_le_trans : forall x y z, c x y <> Gt -> c y z <> Gt -> c x z <> Gt
}.

Section Viterbi.
Context {num : Type} {NUM : Numeric num}.
Context {elt : Type} `{Countable elt}.

(** [LOG_SCALED], the module's scale flag ([True] as shipped). *)
Variable LOG_SCALED : bool.

(** Lines 9-16: the three module globals after the module has loaded. *)
Definition DEFAULT_GOOD_SCORE : num :=
  if LOG_SCALED then log num_one else num_one.
Definition DEFAULT_BAD_SCORE : num :=
  if LOG_SCALED then log num_half else num_half.
Definition DEFAULT_SCORE_COMBINATION (x y : num) : num :=
  if LOG_SCALED then num_add x y else num_mul x y.

(** ** Cells and paths *)

(** The attributes of a cell fixed at construction. *)
Record CellRef := {
  row_idx : nat;
  col_idx : nat;
  a_element : option elt;
  b_element : option elt
}.

Record ViterbiPath := {
  cells : list CellRef;
  score : num
}.

Record ViterbiCell := {
  ref : CellRef;
  paths : list ViterbiPath
}.

(** [ViterbiCell.__init__]: [seq[idx]] or [None] on [IndexError]. *)
Definition ViterbiCell_init (a b : list elt) (row col : nat) : ViterbiCell :=
  {| ref := {| row_idx := row; col_idx := col;
               a_element := a !! row; b_element := b !! col |};
     paths := [] |}.

Definition get_row_idx (c : CellRef) : nat := row_idx c.
Definition get_col_idx (c : CellRef) : nat := col_idx c.
Definition get_a_element (c : CellRef) : option elt := a_element c.
Definition get_b_element (c : CellRef) : option elt := b_element c.

Definition Cell_get_coordinates (c : CellRef) : nat * nat :=
  (get_row_idx c, get_col_idx c).

Definition Cell_get_elements (c : CellRef) : option elt * option elt :=
  (a_element c, b_element c).

(** [ViterbiCell.get_all_paths]: a read of [self.paths] (the list object
    itself, not a copy: what a later sort does to the cell's list shows in
    the list returned here). *)
Definition Cell_get_all_paths (self : ViterbiCell) : list ViterbiPath :=
  paths self.

Definition get_score (p : ViterbiPath) : num := score p.

Definition cmp_score (x y : ViterbiPath) : comparison := cmp (score x) (score y).

(** The [while True] loop of [get_best_paths]: advance [path_idx] while
    [self.paths[path_idx]] exists and has the best score.  Every turn
    moves the index by one, so [length paths] turns of fuel are enough. *)
Fixpoint best_scan (fuel : nat) (ps : list ViterbiPath) (best_score : num)
    (path_idx : nat) : nat :=
  match fuel with
  | O => path_idx
  | S fuel' =>
      match ps !! path_idx with
      | None => path_idx                              (* IndexError: break *)
      | Some p =>
          if num_ne (get_score p) best_score then path_idx
          else best_scan fuel' ps best_score (S path_idx)
      end
  end.

(** [ViterbiCell.get_best_paths], with [self.parent.scores_are_costs] as
    an argument.  [self.paths.sort] sorts in place: the cell that comes
    back holds the sorted list. *)
Definition Cell_get_best_paths (scores_are_costs : bool) (self : ViterbiCell)
    : option (list ViterbiPath * ViterbiCell) :=
  if bool_decide (length (paths self) = 0) then Some ([], self)
  else
    let sorted := list_sort cmp_score (negb scores_are_costs) (paths self) in
    let self' := {| ref := ref self; paths := sorted |} in
    p0 ← sorted !! 0;
    let best_score := get_score p0 in
    let path_idx := best_scan (length sorted) sorted best_score 1 in
    Some (take path_idx sorted, self').

(** ** ViterbiPath *)

(** [_get_cell_properties(what)] for a [what] other than ['elements']. *)
Definition _get_cell_properties_coordinates (p : ViterbiPath) : list (nat * nat) :=
  map Cell_get_coordinates (cells p).

Definition Path_get_coordinates (p : ViterbiPath) : list (nat * nat) :=
  _get_cell_properties_coordinates p.

(** One turn of the loop of [get_elements]: the pair appended for the
    transition from [this_cell] to [next_cell]. *)
Definition transition (this_cell next_cell : CellRef) : option elt * option elt :=
  let '(this_row, this_col) := Cell_get_coordinates this_cell in
  let '(next_row, next_col) := Cell_get_coordinates next_cell in
  let a_element := if bool_decide (this_row ≠ next_row)
                   then get_a_element this_cell else None in
  let b_element := if bool_decide (this_col ≠ next_col)
                   then get_b_element this_cell else None in
  (a_element, b_element).

(** [ViterbiPath.get_elements]: [cell_idx] runs over
    [range(len(self.cells))[:-1]]; [self.cells[i]] raises [IndexError]
    out of range. *)
Definition Path_get_elements (p : ViterbiPath) : option (list (option elt * option elt)) :=
  mapM (fun cell_idx =>
          this_cell ← cells p !! cell_idx;
          next_cell ← cells p !! (cell_idx + 1);
          Some (transition this_cell next_cell))
       (seq 0 (length (cells p) - 1)).

(** ** ViterbiAligner *)

(** [alignment_scores[a_key][b_key]]: a dict of dicts keyed by an element
    or [None]. *)
Record ViterbiAligner := {
  a : list elt;
  b : list elt;
  alignment_scores : option (gmap (option elt) (gmap (option elt) num));
  scores_are_costs : bool;
  grid : option (list (list ViterbiCell))  (* unset until initialize_grid runs *)
}.

Definition set_grid (self : ViterbiAligner) (g : list (list ViterbiCell)) : ViterbiAligner :=
  {| a := a self; b := b self; alignment_scores := alignment_scores self;
     scores_are_costs := scores_are_costs self; grid := Some g |}.

(** [ViterbiAligner.initialize_grid] *)
Definition initialize_grid (self : ViterbiAligner) : ViterbiAligner :=
  let grid :=
    map (fun row_idx =>
           map (fun col_idx => ViterbiCell_init (a self) (b self) row_idx col_idx)
               (seq 0 (length (b self) + 1)))
        (seq 0 (length (a self) + 1)) in
  set_grid self grid.

(** [grid[r][c]], [None] on [IndexError]. *)
Definition grid_get (g : list (list ViterbiCell)) (r c : nat) : option ViterbiCell :=
  row ← g !! r; row !! c.

(** A cell with one more path at the end of its list. *)
Definition add_path (p : ViterbiPath) (c : ViterbiCell) : ViterbiCell :=
  {| ref := ref c; paths := paths c ++ [p] |}.

(** [cell.paths.append(p)] for the cell object behind [cell]. *)
Definition paths_append (g : list (list ViterbiCell)) (cell : CellRef) (p : ViterbiPath)
    : list (list ViterbiCell) :=
  alter (alter (add_path p) (col_idx cell)) (row_idx cell) g.

(** [next_cell == other] on cell objects (identity; [other] may be [None]). *)
Definition same_cell (next_cell : CellRef) (other : option CellRef) : bool :=
  match other with
  | Some c => bool_decide (row_idx next_cell = row_idx c ∧ col_idx next_cell = col_idx c)
  | None => false
  end.

(** The body of [for next_cell in [delete_cell, diag_cell, insert_cell]]
    (lines 266-305) for one [path] of [cell]. *)
Definition try_move (self : ViterbiAligner) (cell : CellRef)
    (delete_cell diag_cell insert_cell : option CellRef) (path : ViterbiPath)
    (g : list (list ViterbiCell)) (next_cell : option CellRef) : list (list ViterbiCell) :=
  match next_cell with
  | None => g                                                   (* continue *)
  | Some next_cell =>
      let cell_a_element := get_a_element cell in
      let cell_b_element := get_b_element cell in
      let a_next_element : option elt := None in
      let b_next_element : option elt := None in
      let move_score := DEFAULT_BAD_SCORE in
      let '(a_next_element, b_next_element, move_score) :=
        if same_cell next_cell diag_cell
        then (cell_a_element, cell_b_element, DEFAULT_GOOD_SCORE)
        else (a_next_element, b_next_element, move_score) in
      let a_next_element :=
        if same_cell next_cell delete_cell then cell_a_element else a_next_element in
      let b_next_element :=
        if same_cell next_cell insert_cell then cell_b_element else b_next_element in
      let move_score :=
        match alignment_scores self with
        | None => Some move_score
        | Some table =>                                    (* None: KeyError *)
            inner ← table !! a_next_element; inner !! b_next_element
        end in
      match move_score with
      | None => g                                               (* continue *)
      | Some move_score =>
          let cells_so_far := cells path in
          let score_so_far := score path in
          let new_path :=
            {| cells := cells_so_far ++ [next_cell];
               score := DEFAULT_SCORE_COMBINATION score_so_far move_score |} in
          paths_append g next_cell new_path
      end
  end.

(** A [for] loop whose body may raise. *)
Fixpoint for_each {S X : Type} (body : S -> X -> option S) (s : S) (xs : list X) : option S :=
  match xs with
  | [] => Some s
  | x :: xs' => s' ← body s x; for_each body s' xs'
  end.

(** Lines 241-305: the visit of the cell at [(row_idx, col_idx)].  The
    three neighbours are other cells than [cell], so [cell.paths] does not
    grow while it is iterated. *)
Definition visit (self : ViterbiAligner) (row_idx : nat)
    (g : list (list ViterbiCell)) (col_idx : nat) : option (list (list ViterbiCell)) :=
  cell ← grid_get g row_idx col_idx;
  let delete_cell := ref <$> grid_get g (row_idx + 1) col_idx in
  let diag_cell := ref <$> grid_get g (row_idx + 1) (col_idx + 1) in
  let insert_cell := ref <$> grid_get g row_idx (col_idx + 1) in
  Some (foldl (fun g path =>
                 foldl (try_move self (ref cell) delete_cell diag_cell insert_cell path)
                       g [delete_cell; diag_cell; insert_cell])
              g (paths cell)).

Definition visit_row (self : ViterbiAligner) (g : list (list ViterbiCell)) (row_idx : nat)
    : option (list (list ViterbiCell)) :=
  row ← g !! row_idx;
  for_each (visit self row_idx) g (seq 0 (length row)).

(** [ViterbiAligner.align] *)
Definition align (self : ViterbiAligner) : option ViterbiAligner :=
  g ← grid self;
  startcell ← grid_get g 0 0;
  let startpath := {| cells := [ref startcell]; score := DEFAULT_GOOD_SCORE |} in
  let g := paths_append g (ref startcell) startpath in
  g ← for_each (visit_row self) g (seq 0 (length g));
  Some (set_grid self g).

(** [ViterbiAligner.__init__] *)
Definition ViterbiAligner_init (a b : list elt)
    (alignment_scores : option (gmap (option elt) (gmap (option elt) num)))
    (scores_are_costs run : bool) : option ViterbiAligner :=
  let self := {| a := a; b := b; alignment_scores := alignment_scores;
                 scores_are_costs := scores_are_costs; grid := None |} in
  if run then align (initialize_grid self) else Some self.

(** [self.grid[-1][-1]] with its position. *)
Definition last_cell (g : list (list ViterbiCell)) : option (nat * nat * ViterbiCell) :=
  row ← last g; c ← last row; Some (length g - 1, length row - 1, c).

(** [ViterbiAligner.get_all_paths] *)
Definition get_all_paths (self : ViterbiAligner) : option (list ViterbiPath) :=
  g ← grid self;
  '(_, _, last_cell) ← last_cell g;
  Some (Cell_get_all_paths last_cell).

(** [ViterbiAligner.get_best_paths]; the sort inside works on the last
    cell's own list, so the aligner comes back with the result. *)
Definition get_best_paths (self : ViterbiAligner) : option (list ViterbiPath * ViterbiAligner) :=
  g ← grid self;
  '(r, c, last_cell) ← last_cell g;
  '(res, cell') ← Cell_get_best_paths (scores_are_costs self) last_cell;
  Some (res, set_grid self (alter (alter (fun _ => cell') c) r g)).

(** ** Vocabulary of the properties *)

(** [x] is at least as good a score as [y]: not larger when scores are
    costs, not smaller otherwise. *)
Definition better_eq (scores_are_costs : bool) (x y : num) : Prop :=
  if scores_are_costs then cmp x y <> Gt else cmp y x <> Gt.

(** [p] has the extremal score of [ps]: the minimum when scores are costs,
    the maximum otherwise. *)
Definition extremal (scores_are_costs : bool) (ps : list ViterbiPath) (p : ViterbiPath) : Prop :=
  Forall (fun q => better_eq scores_are_costs (score p) (score q)) ps.

#[export] Instance better_eq_dec costs x y : Decision (better_eq costs x y).
Proof. unfold better_eq. destruct costs; apply _. Defined.

#[export] Instance extremal_dec costs ps p : Decision (extremal costs ps p).
Proof. unfold extremal. apply _. Defined.

(** The reference to the cell at [(row, col)] of the aligner of [a] and [b]. *)
Definition cell_ref (a b : list elt) (row col : nat) : CellRef :=
  {| row_idx := row; col_idx := col; a_element := a !! row; b_element := b !! col |}.

(** The transitions of a list of cells, front to back. *)
Fixpoint transitions (l : list CellRef) : list (option elt * option elt) :=
  match l with
  | this_cell :: l' =>
      match l' with
      | next_cell :: _ => transition this_cell next_cell :: transitions l'
      | [] => []
      end
  | [] => []
  end.

(** One of the three moves, on coordinates. *)
Definition is_move (x y : nat * nat) : Prop :=
  (y.1 = x.1 + 1 ∧ y.2 = x.2) ∨ (y.1 = x.1 + 1 ∧ y.2 = x.2 + 1) ∨ (y.1 = x.1 ∧ y.2 = x.2 + 1).

(** [l] is a walk over cells of the grid of [a] and [b] from the origin to
    [(row, col)] by moves. *)
Inductive walk (a b : list elt) : nat -> nat -> list CellRef -> Prop :=
| walk_start : walk a b 0 0 [cell_ref a b 0 0]
| walk_move row col row' col' l :
    walk a b row col l ->
    is_move (row, col) (row', col') ->
    row' <= length a -> col' <= length b ->
    walk a b row' col' (l ++ [cell_ref a b row' col']).

(** The grid has the shape and the cells [initialize_grid] gives it. *)
Definition shape_ok (a b : list elt) (g : list (list ViterbiCell)) : Prop :=
  length g = length a + 1 ∧
  forall r row, g !! r = Some row ->
    length row = length b + 1 ∧
    forall c cell, row !! c = Some cell -> ref cell = cell_ref a b r c.

(** Every path of every cell is a walk to that cell. *)
Definition paths_ok (a b : list elt) (g : list (list ViterbiCell)) : Prop :=
  forall r c cell p, grid_get g r c = Some cell -> p ∈ paths cell -> walk a b r c (cells p).

(** What the sweep keeps true of the grid. *)
Definition grid_inv (a b : list elt) (g : list (list ViterbiCell)) : Prop :=
  shape_ok a b g ∧ paths_ok a b g.

(** The order a sort with [reverse=rev] establishes. *)
Definition sort_le (rev : bool) (u v : ViterbiPath) : Prop :=
  if rev then cmp_score v u <> Gt else cmp_score u v <> Gt.

(** A cell after [get_best_paths] has sorted its paths. *)
Definition sorted_cell (costs : bool) (cell : ViterbiCell) : ViterbiCell :=
  {| ref := ref cell; paths := list_sort cmp_score (negb costs) (paths cell) |}.

(** What [get_best_paths] returns once [self.paths] is sorted (lines
    93-105). *)
Definition best_prefix (sorted : list ViterbiPath) : list ViterbiPath :=
  match sorted with
  | [] => []
  | p0 :: _ => take (best_scan (length sorted) sorted (get_score p0) 1) sorted
  end.

(** The length of the longest prefix of [l] whose scores all equal [best]. *)
Fixpoint eq_prefix (best : num) (l : list ViterbiPath) : nat :=
  match l with
  | [] => 0
  | p :: l' => if num_ne (get_score p) best then 0 else S (eq_prefix best l')
  end.

End Viterbi.

(** ** Exact rationals as numbers *)

(** [log] on rationals, tabulated where the module calls it: [log(1)] is
    [0.0] and [log(0.5)] is the double [-0x1.62e42fefa39efp-1]; it is applied
    nowhere else. *)
Definition Qlog (q : Q) : Q :=
  (if Qeq_bool q 1 then 0
   else if Qeq_bool q (1 # 2) then -6243314768165359 # 9007199254740992
   else 0)%Q.

#[export] Instance Q_Numeric : Numeric Q := {|
  num_one := 1%Q;
  num_half := (1 # 2)%Q;
  log := Qlog;
  num_add := Qplus;
  num_mul := Qmult;
  cmp := Qcompare
|}.

(** ** Binary64 floats as numbers *)

(** [log] on doubles, tabulated where the module calls it: [log(1)] is [0.0]
    and [log(0.5)] is [-0.6931471805599453], the correctly rounded value; it
    is applied nowhere else. *)
Definition float_log (x : float) : float :=
  if PrimFloat.eqb x 1%float then 0%float
  else if PrimFloat.eqb x 0.5%float then (-0x1.62e42fefa39efp-1)%float
  else PrimFloat.nan.

(** [cmp] on doubles.  On a NaN CPython 2 falls back to comparing object
    addresses; no score computed below is a NaN. *)
Definition float_cmp (x y : float) : comparison :=
  match PrimFloat.compare x y with
  | FEq => Eq
  | FLt => Lt
  | FGt => Gt
  | FNotComparable => Gt
  end.

#[export] Instance float_Numeric : Numeric float := {|
  num_one := 1%float;
  num_half := 0.5%float;
  log := float_log;
  num_add := PrimFloat.add;
  num_mul := PrimFloat.mul;
  cmp := float_cmp
|}.

(** ** The rest of the module *)

Section Rest.
Context {num : Type} {NUM : Numeric num}.
Context {elt : Type} `{Countable elt}.
Variable LOG_SCALED : bool.

(** [ViterbiCell.get_name]: the slices [parent.a[row_idx:]] and
    [parent.b[col_idx:]]. *)
Definition Cell_get_name (parent : @ViterbiAligner num elt _ _) (c : @CellRef elt)
    : list elt * list elt :=
  (drop (row_idx c) (a parent), drop (col_idx c) (b parent)).

(** [_get_cell_properties('elements')] *)
Definition _get_cell_properties_elements (p : @ViterbiPath num elt)
    : list (option elt * option elt) :=
  map Cell_get_elements (cells p).

(** A value [print_grid] puts in its grid. *)
Inductive GridVal :=
| NPaths (n : nat)
| Names (name : list elt * list elt)
| Coordinates (rc : nat * nat).

(** [ViterbiAligner.print_grid]: the rows handed to [print], in the order
    they are printed ([grid[::-1]]). *)
Definition print_grid (self : @ViterbiAligner num elt _ _) (what : string)
    : option (list (list GridVal)) :=
  g ← grid self;
  let grid :=
    map (fun row =>
           map (fun cell =>
                  if decide (what = "npaths"%string)
                  then NPaths (length (Cell_get_all_paths cell))
                  else if decide (what = "names"%string)
                  then Names (Cell_get_name self (ref cell))
                  else Coordinates (row_idx (ref cell), col_idx (ref cell)))
               row)
        g in
  Some (reverse grid).

(** *** Vocabulary of the sweep *)

(** The three moves out of a cell. *)
Inductive Move := Delete | Diag | Insert.

(** Where a move from [(r, c)] leads, and where a move into [(r, c)] comes
    from. *)
Definition move_target (k : Move) (r c : nat) : nat * nat :=
  match k with
  | Delete => (r + 1, c)
  | Diag => (r + 1, c + 1)
  | Insert => (r, c + 1)
  end.

Definition move_source (k : Move) (r c : nat) : option (nat * nat) :=
  match k, r, c with
  | Delete, S r', _ => Some (r', c)
  | Diag, S r', S c' => Some (r', c')
  | Insert, _, S c' => Some (r, c')
  | _, _, _ => None
  end.

(** The key pair of a move out of [cell] (lines 274-285). *)
Definition move_keys (cell : @CellRef elt) (k : Move) : option elt * option elt :=
  match k with
  | Delete => (a_element cell, None)
  | Diag => (a_element cell, b_element cell)
  | Insert => (None, b_element cell)
  end.

(** The score of a move out of [cell], [None] when the table forbids it
    (lines 272-294). *)
Definition move_score (self : @ViterbiAligner num elt _ _) (cell : @CellRef elt) (k : Move)
    : option num :=
  match alignment_scores self with
  | None =>
      Some (match k with
            | Diag => DEFAULT_GOOD_SCORE LOG_SCALED
            | _ => DEFAULT_BAD_SCORE LOG_SCALED
            end)
  | Some table => inner ← table !! (move_keys cell k).1; inner !! (move_keys cell k).2
  end.

(** [path] extended by the move [k] from [cell] to [next_cell] (lines
    298-302), when the move is allowed. *)
Definition extend (self : @ViterbiAligner num elt _ _) (cell : @CellRef elt) (k : Move)
    (next_cell : @CellRef elt) (path : @ViterbiPath num elt) : option (@ViterbiPath num elt) :=
  move_score ← move_score self cell k;
  Some {| cells := cells path ++ [next_cell];
          score := DEFAULT_SCORE_COMBINATION LOG_SCALED (score path) move_score |}.

(** The path [align] seeds the origin with. *)
Definition startpath (a b : list elt) : @ViterbiPath num elt :=
  {| cells := [cell_ref a b 0 0]; score := DEFAULT_GOOD_SCORE LOG_SCALED |}.

Definition seed (a b : list elt) (r c : nat) : list (@ViterbiPath num elt) :=
  if decide (r = 0 ∧ c = 0) then [startpath a b] else [].

(** The cells visited before the sweep reaches [(r0, c0)]. *)
Definition visited (r0 c0 r c : nat) : bool :=
  bool_decide (r < r0 ∨ (r = r0 ∧ c < c0)).

(** The paths the move [k] brings into [(r, c)] from its source, once the
    source is among the cells [vis]. *)
Definition arrivals (self : @ViterbiAligner num elt _ _) (g : list (list ViterbiCell))
    (vis : nat -> nat -> bool) (k : Move) (r c : nat) : list (@ViterbiPath num elt) :=
  match move_source k r c with
  | Some (r', c') =>
      if vis r' c' then
        match grid_get g r' c' with
        | Some source =>
            omap (extend self (ref source) k (cell_ref (a self) (b self) r c)) (paths source)
        | None => []
        end
      else []
  | None => []
  end.

(** The paths of [(r, c)] in terms of the paths of its sources. *)
Definition gathered (self : @ViterbiAligner num elt _ _) (g : list (list ViterbiCell))
    (vis : nat -> nat -> bool) (r c : nat) : list (@ViterbiPath num elt) :=
  seed (a self) (b self) r c ++ arrivals self g vis Diag r c
  ++ arrivals self g vis Delete r c ++ arrivals self g vis Insert r c.

(** The paths a visit of [(r0, c0)] with path list [ps] appends at [(r, c)]. *)
Definition appended (self : @ViterbiAligner num elt _ _) (r0 c0 : nat)
    (ps : list (@ViterbiPath num elt)) (r c : nat) : list (@ViterbiPath num elt) :=
  let cell := cell_ref (a self) (b self) r0 c0 in
  let next := cell_ref (a self) (b self) r c in
  if decide ((r, c) = move_target Delete r0 c0) then omap (extend self cell Delete next) ps
  else if decide ((r, c) = move_target Diag r0 c0) then omap (extend self cell Diag next) ps
  else if decide ((r, c) = move_target Insert r0 c0) then omap (extend self cell Insert next) ps
  else [].

(** A cell with more paths at the end of its list. *)
Definition add_paths (ps : list (@ViterbiPath num elt)) (c : @ViterbiCell num elt) : @ViterbiCell num elt :=
  {| ref := ref c; paths := paths c ++ ps |}.

(** [g'] is [g] with the paths [f r c] appended to each cell [(r, c)]. *)
Definition grows (g g' : list (list ViterbiCell)) (f : nat -> nat -> list (@ViterbiPath num elt)) : Prop :=
  forall r c, grid_get g' r c = add_paths (f r c) <$> grid_get g r c.

(** What holds of the grid when the sweep is about to visit [(r0, c0)]. *)
Definition sweep_inv (self : @ViterbiAligner num elt _ _) (r0 c0 : nat)
    (g : list (list (@ViterbiCell num elt))) : Prop :=
  shape_ok (a self) (b self) g
  ∧ forall r c cell, grid_get g r c = Some cell ->
                     paths cell = gathered self g (visited r0 c0) r c.

(** What holds of the grid when the sweep has ended. *)
Definition swept (self : @ViterbiAligner num elt _ _)
    (g : list (list (@ViterbiCell num elt))) : Prop :=
  shape_ok (a self) (b self) g
  ∧ forall r c cell, grid_get g r c = Some cell ->
                     paths cell = gathered self g (fun _ _ => true) r c.

(** The coordinates of the last cell but one of a list of cells. *)
Definition penult (l : list (@CellRef elt)) : option (nat * nat) :=
  Cell_get_coordinates <$> reverse l !! 1.

(** The paths the sweep can build: the seeded path, and every allowed
    extension of such a path into a cell of the grid. *)
Inductive legal (self : @ViterbiAligner num elt _ _) : nat -> nat -> @ViterbiPath num elt -> Prop :=
| legal_start : legal self 0 0 (startpath (a self) (b self))
| legal_move k r c r' c' p p' :
    legal self r c p ->
    move_target k r c = (r', c') ->
    r' <= length (a self) -> c' <= length (b self) ->
    extend self (cell_ref (a self) (b self) r c) k (cell_ref (a self) (b self) r' c') p
    = Some p' ->
    legal self r' c' p'.

(** The score of an alignment, recomputed entry by entry: under the default
    scores a pair of two elements is a diagonal move; under a table each pair
    is looked up. *)
Definition entry_score (self : @ViterbiAligner num elt _ _) (e : option elt * option elt)
    : option num :=
  match alignment_scores self with
  | None =>
      Some (match e with
            | (Some _, Some _) => DEFAULT_GOOD_SCORE LOG_SCALED
            | _ => DEFAULT_BAD_SCORE LOG_SCALED
            end)
  | Some table => inner ← table !! e.1; inner !! e.2
  end.

Fixpoint alignment_score (self : @ViterbiAligner num elt _ _) (acc : num)
    (alignment : list (option elt * option elt)) : option num :=
  match alignment with
  | [] => Some acc
  | e :: rest =>
      s ← entry_score self e;
      alignment_score self (DEFAULT_SCORE_COMBINATION LOG_SCALED acc s) rest
  end.

End Rest.

(** The number of walks from (0,0) to [(r, c)] by the three moves. *)
Fixpoint delannoy (r : nat) : nat -> nat :=
  match r with
  | O => fun _ => 1
  | S r' =>
      fix row (c : nat) : nat :=
        match c with
        | O => 1
        | S c' => delannoy r' c' + delannoy r' c + row c'
        end
  end.

(** ** The order of the default scores *)

(** An alignment entry that holds a None: an insertion or a deletion. *)
Definition is_indel {elt : Type} (e : option elt * option elt) : bool :=
  match e with
  | (Some _, Some _) => false
  | _ => true
  end.

Definition indels {elt : Type} (alignment : list (option elt * option elt)) : nat :=
  length (List.filter is_indel alignment).

(** The score after [n] bad moves from the score of the start path. *)
Definition bad_steps {num : Type} {NUM : Numeric num} (LOG_SCALED : bool) (n : nat) : num :=
  Nat.iter n
    (fun s => DEFAULT_SCORE_COMBINATION LOG_SCALED s (DEFAULT_BAD_SCORE LOG_SCALED))
    (DEFAULT_GOOD_SCORE LOG_SCALED).

(** The default scores on exact numbers: combining with the good score
    keeps a score, up to [cmp]; one bad move makes the start score smaller;
    combining two scores with the bad score keeps their order. *)
Class DefaultScoreOrder (LOG_SCALED : bool) (num : Type) {NUM : Numeric num} : Prop := {
  good_step : forall s : num,
    cmp (DEFAULT_SCORE_COMBINATION LOG_SCALED s (DEFAULT_GOOD_SCORE LOG_SCALED)) s = Eq;
  bad_start :
    cmp (DEFAULT_SCORE_COMBINATION LOG_SCALED
           (DEFAULT_GOOD_SCORE LOG_SCALED) (DEFAULT_BAD_SCORE LOG_SCALED) : num)
        (DEFAULT_GOOD_SCORE LOG_SCALED) = Lt;
  bad_step_cmp : forall s t : num,
    cmp (DEFAULT_SCORE_COMBINATION LOG_SCALED s (DEFAULT_BAD_SCORE LOG_SCALED))
        (DEFAULT_SCORE_COMBINATION LOG_SCALED t (DEFAULT_BAD_SCORE LOG_SCALED))
    = cmp s t
}.

(** ** The aligner of [b] and [a] *)

(** A cell and a path of the aligner of [a] and [b], seen from the aligner
    of [b] and [a]: rows and columns change places. *)
Definition mirror_cell {elt : Type} (x : @CellRef elt) : @CellRef elt :=
  {| row_idx := col_idx x; col_idx := row_idx x;
     a_element := b_element x; b_element := a_element x |}.

Definition mirror {num elt : Type} (p : @ViterbiPath num elt) : @ViterbiPath num elt :=
  {| cells := mirror_cell <$> cells p; score := score p |}.

(** * Properties *)

(** ** Stable sorting by a comparison function *)

Section Sorting.
Context {A : Type} (c : A -> A -> comparison) {PO : CmpPreorder c}.

Lemma c_flip_Gt x y : c x y = Gt <-> c y x = Lt.
Proof. rewrite (@c_antisym _ c _ x y). destruct (c x y); simpl; split; congruence. Qed.

Lemma c_flip_Eq x y : c x y = Eq <-> c y x = Eq.
Proof. rewrite (@c_antisym _ c _ x y). destruct (c x y); simpl; split; congruence. Qed.

Lemma c_le_le_Eq x y : c x y <> Gt -> c y x <> Gt -> c x y = Eq.
Proof. rewrite (@c_antisym _ c _ x y). destruct (c x y); simpl; congruence. Qed.

Lemma c_Eq_trans x y z : c x y = Eq -> c y z = Eq -> c x z = Eq.
Proof.
  intros Hxy Hyz. apply c_le_le_Eq.
  - apply (@c_le_trans _ c _ x y z); congruence.
  - apply c_flip_Eq in Hxy, Hyz. apply (@c_le_trans _ c _ z y x); congruence.
Qed.

Lemma c_flip_preorder : CmpPreorder (fun x y => c y x).
Proof.
  split.
  - intros x. apply (@c_refl _ c _).
  - intros x y. apply (@c_antisym _ c _).
  - intros x y z Hxy Hyz. apply (@c_le_trans _ c _ z y x); assumption.
Qed.

(** Stability: the elements equivalent to [k] keep their order. *)
Lemma insert_stable_filter k x l :
  filter (fun y => c y k = Eq) (insert_stable c x l) = filter (fun y => c y k = Eq) (x :: l).
Proof.
  induction l as [|y l IH]; [done|]. simpl.
  destruct (c x y) eqn:Hxy; try done.
  rewrite filter_cons, IH, !filter_cons.
  destruct (decide (c x k = Eq)) as [Hx|Hx]; [|done].
  destruct (decide (c y k = Eq)) as [Hy|Hy]; [|done].
  exfalso. apply c_flip_Eq in Hy.
  pose proof (c_Eq_trans _ _ _ Hx Hy). congruence.
Qed.

Lemma stable_sort_filter k l :
  filter (fun y => c y k = Eq) (stable_sort c l) = filter (fun y => c y k = Eq) l.
Proof.
  induction l as [|x l IH]; [done|]. simpl.
  change (foldr (insert_stable c) [] l) with (stable_sort c l).
  rewrite insert_stable_filter, !filter_cons, IH. done.
Qed.

Lemma insert_stable_Permutation x l : insert_stable c x l ≡ₚ x :: l.
Proof.
  induction l as [|y l IH]; [done|]. simpl.
  destruct (c x y); try done. rewrite IH. apply Permutation_swap.
Qed.

Lemma stable_sort_Permutation l : stable_sort c l ≡ₚ l.
Proof.
  induction l as [|x l IH]; [done|]. simpl.
  change (foldr (insert_stable c) [] l) with (stable_sort c l).
  by rewrite insert_stable_Permutation, IH.
Qed.

Lemma insert_stable_sorted x l :
  StronglySorted (fun u v => c u v <> Gt) l ->
  StronglySorted (fun u v => c u v <> Gt) (insert_stable c x l).
Proof.
  induction l as [|y l IH]; intros Hl; simpl.
  - repeat constructor.
  - apply StronglySorted_cons in Hl as [Hy Hl].
    assert (Hle : c x y <> Gt ->
              StronglySorted (fun u v => c u v <> Gt) (x :: y :: l)).
    { intros Hxy. apply StronglySorted_cons. split.
      - constructor; [done|]. eapply Forall_impl; [exact Hy|].
        intros z Hz. by apply (@c_le_trans _ c _ x y z).
      - by apply StronglySorted_cons. }
    destruct (c x y) eqn:Hxy; [apply Hle; congruence..|].
    apply StronglySorted_cons. split; [|by apply IH].
    rewrite insert_stable_Permutation. constructor; [|done].
    apply c_flip_Gt in Hxy. congruence.
Qed.

Lemma stable_sort_sorted l : StronglySorted (fun u v => c u v <> Gt) (stable_sort c l).
Proof.
  induction l as [|x l IH]; simpl; [constructor|].
  by apply insert_stable_sorted.
Qed.

(** Sorting a sorted list changes nothing. *)
Lemma stable_sort_id l :
  StronglySorted (fun u v => c u v <> Gt) l -> stable_sort c l = l.
Proof.
  induction l as [|x l IH]; intros Hl; [done|]. simpl.
  apply StronglySorted_cons in Hl as [Hx Hl].
  change (foldr (insert_stable c) [] l) with (stable_sort c l).
  rewrite IH by done. destruct l as [|y l]; [done|]. simpl.
  apply Forall_cons in Hx as [Hxy _]. by destruct (c x y).
Qed.

Lemma StronglySorted_reverse l :
  StronglySorted (fun u v => c u v <> Gt) l ->
  StronglySorted (fun u v => c v u <> Gt) (reverse l).
Proof.
  induction l as [|x l IH]; intros Hl; [constructor|].
  apply StronglySorted_cons in Hl as [Hx Hl].
  rewrite reverse_cons. apply StronglySorted_app. split_and!.
  - intros u v Hu Hv. rewrite elem_of_reverse in Hu.
    rewrite list_elem_of_singleton in Hv. subst v.
    rewrite Forall_forall in Hx. by apply Hx.
  - by apply IH.
  - repeat constructor.
Qed.

(** In a sorted list the elements equivalent to the head are a prefix. *)
Lemma sorted_filter_head_nil x y l :
  c x y <> Gt -> c y x <> Eq ->
  Forall (fun z => c y z <> Gt) l ->
  filter (fun z => c z x = Eq) l = [].
Proof.
  intros Hxy Hne Hl. induction Hl as [|z l Hz Hl IH]; [done|].
  rewrite filter_cons_False; [done|].
  intros Hzx. apply Hne. apply c_le_le_Eq.
  - apply (@c_le_trans _ c _ y z x); congruence.
  - done.
Qed.

End Sorting.

(** ** get_best_paths *)

Section BestPaths.
Context {num : Type} {NUM : Numeric num} {ORD : NumericOrder num}.
Context {elt : Type} `{Countable elt}.

Abbreviation Path := (@ViterbiPath num elt).

#[local] Instance cmp_score_preorder : CmpPreorder (@cmp_score num NUM elt).
Proof.
  split; unfold cmp_score.
  - intros x. apply cmp_refl.
  - intros x y. apply cmp_antisym.
  - intros x y z. apply cmp_le_trans.
Qed.

#[local] Instance cmp_score_flip_preorder :
  CmpPreorder (fun x y : Path => cmp_score y x).
Proof. apply c_flip_preorder, _. Qed.

Lemma list_sort_filter rev k (l : list Path) :
  filter (fun y => cmp_score y k = Eq) (list_sort cmp_score rev l)
  = filter (fun y => cmp_score y k = Eq) l.
Proof.
  destruct rev; simpl.
  - rewrite filter_reverse, (stable_sort_filter cmp_score), filter_reverse.
    apply reverse_involutive.
  - apply (stable_sort_filter cmp_score).
Qed.

Lemma list_sort_Permutation rev (l : list Path) : list_sort cmp_score rev l ≡ₚ l.
Proof.
  destruct rev; simpl.
  - by rewrite reverse_Permutation, stable_sort_Permutation, reverse_Permutation.
  - by apply stable_sort_Permutation.
Qed.

Lemma list_sort_sorted rev (l : list Path) :
  StronglySorted (sort_le rev) (list_sort cmp_score rev l).
Proof.
  destruct rev; simpl.
  - apply (StronglySorted_reverse cmp_score), stable_sort_sorted, _.
  - apply stable_sort_sorted, _.
Qed.

Lemma list_sort_id rev (l : list Path) :
  StronglySorted (sort_le rev) l -> list_sort cmp_score rev l = l.
Proof.
  destruct rev; simpl; intros Hl.
  - assert (Hrev : StronglySorted (fun u v : Path => cmp_score u v <> Gt) (reverse l))
      by apply (StronglySorted_reverse (fun x y : Path => cmp_score y x)), Hl.
    rewrite (stable_sort_id cmp_score _ Hrev). apply reverse_involutive.
  - apply (stable_sort_id cmp_score _ Hl).
Qed.

Lemma num_ne_false (x y : Path) :
  num_ne (get_score x) (get_score y) = false <-> cmp_score x y = Eq.
Proof. unfold num_ne, cmp_score, get_score. destruct (cmp _ _); split; congruence. Qed.

Lemma best_scan_spec fuel (ps : list Path) best idx :
  length ps <= idx + fuel ->
  best_scan fuel ps best idx = idx + eq_prefix best (drop idx ps).
Proof.
  revert idx. induction fuel as [|fuel IH]; intros idx Hlen; simpl.
  - rewrite drop_ge by lia. simpl. lia.
  - destruct (ps !! idx) as [p|] eqn:Hp.
    + rewrite (drop_S _ _ _ Hp). simpl.
      destruct (num_ne (get_score p) best); [lia|].
      rewrite IH by lia. lia.
    + apply lookup_ge_None in Hp. rewrite drop_ge by lia. simpl. lia.
Qed.

(** In a list sorted either way, whose elements all come after [p0], the
    prefix of the scores equal to [p0]'s holds every such element. *)
Lemma take_eq_prefix rev (p0 : Path) (l : list Path) :
  Forall (sort_le rev p0) l -> StronglySorted (sort_le rev) l ->
  take (eq_prefix (get_score p0) l) l = filter (fun p => cmp_score p p0 = Eq) l.
Proof.
  intros Hp0 Hl. induction l as [|y l IH]; [done|].
  apply Forall_cons in Hp0 as [Hy Hp0].
  apply StronglySorted_cons in Hl as [Hyl Hl]. simpl.
  destruct (num_ne (get_score y) (get_score p0)) eqn:Hne.
  - simpl. rewrite filter_cons_False.
    2:{ intros HEq. apply num_ne_false in HEq. congruence. }
    assert (Hnot : cmp_score y p0 <> Eq).
    { intros HEq. apply num_ne_false in HEq. congruence. }
    symmetry. destruct rev; simpl in *.
    + rewrite (list_filter_iff _ (fun z : Path => cmp_score p0 z = Eq))
        by (intros z; apply (c_flip_Eq cmp_score)).
      apply (sorted_filter_head_nil (fun x y : Path => cmp_score y x) p0 y); try done.
      intros HEq. by apply Hnot, (c_flip_Eq cmp_score).
    + by apply (sorted_filter_head_nil cmp_score p0 y).
  - simpl. apply num_ne_false in Hne. rewrite filter_cons_True by done.
    f_equal. by apply IH.
Qed.

Lemma sort_le_better_eq costs (u v : Path) :
  sort_le (negb costs) u v <-> better_eq costs (score u) (score v).
Proof. by destruct costs. Qed.

Lemma better_eq_trans costs (x y z : num) :
  better_eq costs x y -> better_eq costs y z -> better_eq costs x z.
Proof.
  destruct costs; simpl; intros Hxy Hyz.
  - by apply (cmp_le_trans x y z).
  - by apply (cmp_le_trans z y x).
Qed.

Lemma better_eq_both costs (x y : Path) :
  better_eq costs (score x) (score y) -> better_eq costs (score y) (score x) ->
  cmp_score x y = Eq.
Proof.
  destruct costs; simpl; intros Hxy Hyx.
  - by apply (c_le_le_Eq cmp_score).
  - by apply (c_le_le_Eq cmp_score).
Qed.

Lemma filter_ext_elem (P Q : Path -> Prop) `{!forall x, Decision (P x)}
    `{!forall x, Decision (Q x)} (l : list Path) :
  (forall x, x ∈ l -> P x <-> Q x) -> filter P l = filter Q l.
Proof.
  induction l as [|x l IH]; intros HPQ; [done|].
  rewrite !filter_cons, IH.
  - destruct (decide (P x)) as [HP|HP], (decide (Q x)) as [HQ|HQ]; try done.
    + destruct HQ. apply HPQ; [left|done].
    + destruct HP. apply HPQ; [left|done].
  - intros y Hy. apply HPQ. by right.
Qed.

(** [get_best_paths] raises nothing: it returns the best prefix of the
    sorted list and leaves the sorted list in the cell. *)
Lemma Cell_get_best_paths_prefix costs (cell : @ViterbiCell num elt) :
  Cell_get_best_paths costs cell
  = Some (best_prefix (list_sort cmp_score (negb costs) (paths cell)),
          {| ref := ref cell;
             paths := list_sort cmp_score (negb costs) (paths cell) |}).
Proof.
  unfold Cell_get_best_paths. case_bool_decide as Hlen.
  - destruct (paths cell) as [|p ps] eqn:Hps; [|done]. simpl.
    destruct cell as [rf ps']; simpl in *. subst. by destruct costs.
  - pose proof (list_sort_Permutation (negb costs) (paths cell)) as Hperm.
    destruct (list_sort cmp_score (negb costs) (paths cell)) as [|p0 rest]; [|done].
    apply Permutation_nil_l in Hperm. by rewrite <-Hperm in Hlen.
Qed.

(** The best prefix of the sorted list is the sublist of the paths with
    the extremal score, in their order before the sort. *)
Lemma best_prefix_extremal costs (l : list Path) :
  best_prefix (list_sort cmp_score (negb costs) l) = filter (extremal costs l) l.
Proof.
  set (sorted := list_sort cmp_score (negb costs) l).
  pose proof (list_sort_sorted (negb costs) l) as Hsorted.
  pose proof (list_sort_Permutation (negb costs) l) as Hperm.
  fold sorted in Hsorted, Hperm.
  destruct sorted as [|p0 rest] eqn:Hs.
  { apply Permutation_nil_l in Hperm. by subst. }
  unfold best_prefix.
  rewrite (best_scan_spec _ (p0 :: rest) _ 1) by (simpl; lia).
  simpl.
  apply StronglySorted_cons in Hsorted as [Hp0 Hrest].
  rewrite (take_eq_prefix (negb costs)) by done.
  assert (Hbest : extremal costs l p0).
  { unfold extremal. rewrite <-Hperm. constructor.
    - destruct costs; simpl; unfold cmp_score; by rewrite cmp_refl.
    - eapply Forall_impl; [exact Hp0|]. intros q. apply sort_le_better_eq. }
  transitivity (filter (fun p : Path => cmp_score p p0 = Eq) (p0 :: rest)).
  { rewrite filter_cons_True; [done|]. apply (c_refl (c:=cmp_score)). }
  rewrite <-Hs. unfold sorted. rewrite list_sort_filter.
  apply filter_ext_elem. intros p Hp. split.
  + intros HEq. unfold extremal in *. eapply Forall_impl; [exact Hbest|].
    intros q Hq. eapply better_eq_trans; [|exact Hq].
    destruct costs; simpl; unfold cmp_score in HEq.
    * congruence.
    * apply (c_flip_Eq cmp_score) in HEq. unfold cmp_score in HEq. congruence.
  + intros Hext. apply better_eq_both with costs.
    * unfold extremal in Hext. rewrite Forall_forall in Hext. apply Hext.
      rewrite <-Hperm. left.
    * unfold extremal in Hbest. rewrite Forall_forall in Hbest. by apply Hbest.
Qed.

End BestPaths.

(** ** Paths *)

Section Paths.
Context {num : Type} {elt : Type}.

Abbreviation Ref := (@CellRef elt).

Lemma transitions_length (l : list Ref) : length (transitions l) = length l - 1.
Proof.
  induction l as [|x [|y l] IH]; [done..|].
  change (transitions (x :: y :: l)) with (transition x y :: transitions (y :: l)).
  simpl in *. rewrite IH. lia.
Qed.

Lemma transitions_lookup (l : list Ref) i this_cell next_cell :
  l !! i = Some this_cell -> l !! (i + 1) = Some next_cell ->
  transitions l !! i = Some (transition this_cell next_cell).
Proof.
  revert i. induction l as [|x [|y l] IH]; intros i Hthis Hnext.
  - done.
  - destruct i; simpl in *; [done|]. by destruct i.
  - change (transitions (x :: y :: l)) with (transition x y :: transitions (y :: l)).
    destruct i as [|i]; simpl in *.
    + by simplify_eq.
    + by apply IH.
Qed.

Lemma transitions_snoc (l : list Ref) x y :
  transitions ((l ++ [x]) ++ [y]) = transitions (l ++ [x]) ++ [transition x y].
Proof.
  induction l as [|z l IH]; [done|].
  destruct l as [|w l].
  - done.
  - change (transitions (((z :: w :: l) ++ [x]) ++ [y]))
      with (transition z w :: transitions (((w :: l) ++ [x]) ++ [y])).
    rewrite IH. done.
Qed.

(** The loop over indices of [get_elements] computes [transitions] and
    raises nothing. *)
Lemma Path_get_elements_transitions (p : @ViterbiPath num elt) :
  Path_get_elements p = Some (transitions (cells p)).
Proof.
  unfold Path_get_elements. apply mapM_Some_2, Forall2_same_length_lookup_2.
  - by rewrite length_seq, transitions_length.
  - intros i cell_idx y Hi Hy. apply lookup_seq in Hi as [-> Hi]. simpl.
    destruct (lookup_lt_is_Some_2 (cells p) i) as [this_cell Hthis]; [lia|].
    destruct (lookup_lt_is_Some_2 (cells p) (i + 1)) as [next_cell Hnext]; [lia|].
    rewrite Hthis, Hnext. simpl.
    rewrite (transitions_lookup _ _ _ _ Hthis Hnext) in Hy. done.
Qed.

End Paths.

(** ** The sweep keeps the grid well formed *)

Section Loops.
Context {S X : Type}.

Lemma foldl_inv (P : S -> Prop) (f : S -> X -> S) (l : list X) (s : S) :
  (forall s x, x ∈ l -> P s -> P (f s x)) -> P s -> P (foldl f s l).
Proof.
  revert s. induction l as [|x l IH]; intros s Hf Hs; [done|]. simpl.
  apply IH.
  - intros s' y Hy. apply Hf. by right.
  - apply Hf; [left|done].
Qed.

(** A loop whose body keeps [P] and does not raise under [P] runs to its
    end and keeps [P]. *)
Lemma for_each_inv (P : S -> Prop) (body : S -> X -> option S) (l : list X) (s : S) :
  (forall s x, x ∈ l -> P s -> exists s', body s x = Some s' ∧ P s') ->
  P s -> exists s', for_each body s l = Some s' ∧ P s'.
Proof.
  revert s. induction l as [|x l IH]; intros s Hbody Hs; simpl; [eauto|].
  destruct (Hbody s x) as (s' & -> & Hs'); [left|done|]. simpl.
  apply IH; [|done]. intros s'' y Hy. apply Hbody. by right.
Qed.
End Loops.

Section Sweep.
Context {num : Type} {NUM : Numeric num}.
Context {elt : Type} `{Countable elt}.
Variable LOG_SCALED : bool.

Abbreviation Cell := (@ViterbiCell num elt).
Implicit Types (g : list (list Cell)) (p : @ViterbiPath num elt) (rf : @CellRef elt).
Implicit Types (a b : list elt).

(** Reading the grid after a change to the cell at [(r0, c0)]. *)
Lemma grid_get_alter g (f : Cell -> Cell) r0 c0 r c :
  grid_get (alter (alter f c0) r0 g) r c
  = if decide (r = r0 ∧ c = c0) then f <$> grid_get g r c else grid_get g r c.
Proof.
  unfold grid_get. rewrite list_lookup_alter.
  destruct (decide (r0 = r)) as [<-|Hr].
  - destruct (g !! r0) as [row|]; simpl; [|by case_decide].
    rewrite list_lookup_alter.
    destruct (decide (c0 = c)) as [<-|Hc].
    + by rewrite decide_True.
    + by rewrite decide_False by (intros [??]; congruence).
  - by rewrite decide_False by (intros [??]; congruence).
Qed.

Lemma grid_get_paths_append g rf p r c :
  grid_get (paths_append g rf p) r c
  = if decide (r = row_idx rf ∧ c = col_idx rf)
    then add_path p <$> grid_get g r c else grid_get g r c.
Proof. apply grid_get_alter. Qed.

(** Changing the paths of one cell keeps the shape. *)
Lemma alter_cell_shape a b g (f : Cell -> Cell) r0 c0 :
  (forall c, ref (f c) = ref c) ->
  shape_ok a b g -> shape_ok a b (alter (alter f c0) r0 g).
Proof.
  intros Hf [Hlen Hrows]. split.
  - by rewrite length_alter.
  - intros r row' Hrow'. rewrite list_lookup_alter in Hrow'.
    destruct (decide (r0 = r)) as [<-|Hr]; [|by apply Hrows].
    destruct (g !! r0) as [row|] eqn:Hrow; simplify_eq/=.
    destruct (Hrows _ _ Hrow) as [Hl Hcells]. split.
    + by rewrite length_alter.
    + intros c cell Hcell. rewrite list_lookup_alter in Hcell.
      destruct (decide (c0 = c)) as [<-|Hc]; [|by apply Hcells].
      destruct (row !! c0) as [cell0|] eqn:Hcell0; simplify_eq/=.
      rewrite Hf. by apply Hcells.
Qed.

Lemma paths_append_shape a b g rf p :
  shape_ok a b g -> shape_ok a b (paths_append g rf p).
Proof. by apply alter_cell_shape. Qed.

Lemma paths_append_paths a b g rf p :
  paths_ok a b g -> walk a b (row_idx rf) (col_idx rf) (cells p) ->
  paths_ok a b (paths_append g rf p).
Proof.
  intros Hok Hp r c cell q Hcell Hq.
  rewrite grid_get_paths_append in Hcell. case_decide as Hrc.
  - destruct Hrc as [-> ->].
    destruct (grid_get g (row_idx rf) (col_idx rf)) as [cell0|] eqn:Hcell0;
      simplify_eq/=.
    apply elem_of_app in Hq as [Hq|Hq].
    + by eapply Hok.
    + apply list_elem_of_singleton in Hq. by subst.
  - by eapply Hok.
Qed.

Lemma shape_grid_get a b g r c cell :
  shape_ok a b g -> grid_get g r c = Some cell ->
  ref cell = cell_ref a b r c ∧ r <= length a ∧ c <= length b.
Proof.
  intros [Hlen Hrows] Hcell. unfold grid_get in Hcell.
  destruct (g !! r) as [row|] eqn:Hrow; simplify_eq/=.
  destruct (Hrows _ _ Hrow) as [Hl Hcells].
  apply lookup_lt_Some in Hrow. pose proof (lookup_lt_Some _ _ _ Hcell).
  split; [by apply Hcells|lia].
Qed.

Lemma shape_grid_get_is_Some a b g r c :
  shape_ok a b g -> r <= length a -> c <= length b -> is_Some (grid_get g r c).
Proof.
  intros [Hlen Hrows] Hr Hc. unfold grid_get.
  destruct (lookup_lt_is_Some_2 g r) as [row Hrow]; [lia|]. rewrite Hrow. simpl.
  destruct (Hrows _ _ Hrow) as [Hl _]. apply lookup_lt_is_Some_2. lia.
Qed.

Lemma try_move_inv (self : ViterbiAligner) cell d_cell g_cell i_cell p g next r c :
  walk (a self) (b self) r c (cells p) ->
  (forall rf, next = Some rf ->
     exists r' c', rf = cell_ref (a self) (b self) r' c' ∧ is_move (r, c) (r', c')
                   ∧ r' <= length (a self) ∧ c' <= length (b self)) ->
  grid_inv (a self) (b self) g ->
  grid_inv (a self) (b self) (try_move LOG_SCALED self cell d_cell g_cell i_cell p g next).
Proof.
  intros Hp Hnext [Hshape Hpaths]. destruct next as [rf|]; [|done].
  destruct (Hnext rf eq_refl) as (r' & c' & -> & Hmove & Hr' & Hc').
  unfold try_move.
  destruct (same_cell _ g_cell); simpl;
    (match goal with
     | |- context [match ?ms with Some _ => _ | None => _ end] => destruct ms
     end; [|done]);
    (split; [by apply paths_append_shape|];
     apply paths_append_paths; [done|]; simpl; by eapply walk_move).
Qed.

Lemma neighbour_ok a b g r c r' c' rf :
  shape_ok a b g -> is_move (r, c) (r', c') ->
  ref <$> grid_get g r' c' = Some rf ->
  exists r'' c'', rf = cell_ref a b r'' c'' ∧ is_move (r, c) (r'', c'')
                  ∧ r'' <= length a ∧ c'' <= length b.
Proof.
  intros Hshape Hmove Hrf.
  destruct (grid_get g r' c') as [cell|] eqn:Hcell; simplify_eq/=.
  destruct (shape_grid_get _ _ _ _ _ _ Hshape Hcell) as (-> & ? & ?).
  by exists r', c'.
Qed.

Lemma visit_inv (self : ViterbiAligner) g r c :
  grid_inv (a self) (b self) g -> r <= length (a self) -> c <= length (b self) ->
  exists g', visit LOG_SCALED self r g c = Some g' ∧ grid_inv (a self) (b self) g'.
Proof.
  intros Hinv Hr Hc. pose proof Hinv as [Hshape Hpaths]. unfold visit.
  destruct (shape_grid_get_is_Some _ _ _ _ _ Hshape Hr Hc) as [cell Hcell].
  rewrite Hcell. cbn [mbind option_bind]. eexists; split; [done|].
  apply foldl_inv; [|done]. intros g1 p Hp Hg1.
  apply foldl_inv; [|done]. intros g2 next Hnext Hg2.
  apply try_move_inv with r c; [by eapply Hpaths| |done].
  intros rf ->. rewrite !elem_of_cons in Hnext.
  destruct Hnext as [Hrf|[Hrf|[Hrf|Hrf]]]; [..|by apply not_elem_of_nil in Hrf];
    symmetry in Hrf; eapply neighbour_ok; try exact Hrf; try done; unfold is_move; simpl.
  - left. lia.
  - right; left. lia.
  - right; right. lia.
Qed.

Lemma visit_row_inv (self : ViterbiAligner) g r :
  grid_inv (a self) (b self) g -> r <= length (a self) ->
  exists g', visit_row LOG_SCALED self g r = Some g' ∧ grid_inv (a self) (b self) g'.
Proof.
  intros Hinv Hr. pose proof Hinv as [[Hlen Hrows] _]. unfold visit_row.
  destruct (lookup_lt_is_Some_2 g r) as [row Hrow]; [lia|]. rewrite Hrow. simpl.
  destruct (Hrows _ _ Hrow) as [Hl _].
  apply for_each_inv; [|done]. intros g1 c Hc Hg1.
  apply elem_of_seq in Hc. apply visit_inv; [done..|lia].
Qed.

Lemma initialize_grid_shape (self : ViterbiAligner) g :
  grid (initialize_grid self) = Some g -> shape_ok (a self) (b self) g.
Proof.
  intros Hg. unfold initialize_grid in Hg. simpl in Hg. simplify_eq. split.
  - by rewrite length_map, length_seq.
  - intros r row Hrow. rewrite list_lookup_fmap in Hrow.
    destruct (seq 0 (length (a self) + 1) !! r) as [r'|] eqn:Hr; simplify_eq/=.
    apply lookup_seq in Hr as [-> _]. split.
    + by rewrite length_map, length_seq.
    + intros c cell Hcell. rewrite list_lookup_fmap in Hcell.
      destruct (seq 0 (length (b self) + 1) !! c) as [c'|] eqn:Hc; simplify_eq/=.
      apply lookup_seq in Hc as [-> _]. done.
Qed.

Lemma initialize_grid_paths (self : ViterbiAligner) g r c cell :
  grid (initialize_grid self) = Some g -> grid_get g r c = Some cell -> paths cell = [].
Proof.
  intros Hg Hcell. unfold initialize_grid in Hg. simpl in Hg. simplify_eq.
  unfold grid_get in Hcell. rewrite list_lookup_fmap in Hcell.
  destruct (seq 0 (length (a self) + 1) !! r) as [r'|]; simplify_eq/=.
  rewrite list_lookup_fmap in Hcell.
  destruct (seq 0 (length (b self) + 1) !! c) as [c'|]; by simplify_eq/=.
Qed.

(** [align] on a freshly initialised grid runs to its end and leaves a
    well-formed grid. *)
Lemma align_initialize_grid (self : ViterbiAligner) :
  exists self' g,
    align LOG_SCALED (initialize_grid self) = Some self'
    ∧ a self' = a self ∧ b self' = b self
    ∧ alignment_scores self' = alignment_scores self
    ∧ scores_are_costs self' = scores_are_costs self
    ∧ grid self' = Some g ∧ grid_inv (a self) (b self) g.
Proof.
  destruct (grid (initialize_grid self)) as [g0|] eqn:Hg0; [|done].
  pose proof (initialize_grid_shape _ _ Hg0) as Hshape.
  destruct (shape_grid_get_is_Some _ _ _ 0 0 Hshape) as [startcell Hstart]; [lia..|].
  destruct (shape_grid_get _ _ _ _ _ _ Hshape Hstart) as (Href & _ & _).
  unfold align. rewrite Hg0. simpl. rewrite Hstart. simpl.
  set (g1 := paths_append g0 _ _).
  assert (Hg1 : grid_inv (a (initialize_grid self)) (b (initialize_grid self)) g1).
  { split; [by apply paths_append_shape|].
    apply paths_append_paths.
    - intros r c cell p Hcell Hp.
      rewrite (initialize_grid_paths _ _ _ _ _ Hg0 Hcell) in Hp.
      by apply not_elem_of_nil in Hp.
    - rewrite Href. simpl. apply walk_start. }
  destruct (for_each_inv (grid_inv (a (initialize_grid self)) (b (initialize_grid self)))
              (visit_row LOG_SCALED (initialize_grid self)) (seq 0 (length g1)) g1)
    as (g2 & Hsweep & Hg2); [|done|].
  { intros g r Hr Hg. apply elem_of_seq in Hr. apply visit_row_inv; [done|].
    destruct Hg1 as [[Hlen _] _]. simpl in *. lia. }
  rewrite Hsweep. simpl. by eexists _, g2.
Qed.

End Sweep.

(** ** What a walk says about coordinates and alignments *)

Section Walks.
Context {elt : Type}.
Implicit Types (a b : list elt) (l : list (@CellRef elt)).

Lemma walk_last a b r c l :
  walk a b r c l ->
  exists l', l = l' ++ [cell_ref a b r c] ∧ r <= length a ∧ c <= length b.
Proof.
  destruct 1 as [|r c r' c' l Hl Hmove Hr Hc].
  - exists []. split; [done|lia].
  - by exists l.
Qed.

Lemma walk_coordinates a b r c l :
  walk a b r c l ->
  (Cell_get_coordinates <$> l) !! 0 = Some (0, 0)
  ∧ forall i x y, (Cell_get_coordinates <$> l) !! i = Some x ->
                  (Cell_get_coordinates <$> l) !! (i + 1) = Some y -> is_move x y.
Proof.
  induction 1 as [|r c r' c' l Hl [IH0 IH] Hmove Hr Hc]; [split; [done|]|].
  { intros [|i] x y; simpl; [done|]. by destruct i. }
  destruct (walk_last _ _ _ _ _ Hl) as (l' & -> & _).
  rewrite fmap_app. split.
  - rewrite lookup_app_l; [done|]. rewrite length_fmap, length_app. simpl. lia.
  - intros i x y Hx Hy.
    assert (Hi : i + 1 < length (l' ++ [cell_ref a b r c]) + 1).
    { apply lookup_lt_Some in Hy. rewrite length_app, length_fmap in Hy.
      simpl in Hy. lia. }
    rewrite length_app in Hi. simpl in Hi.
    destruct (decide (i + 1 < length l' + 1)) as [Hlt|Hge].
    + apply (IH i); [rewrite lookup_app_l in Hx|rewrite lookup_app_l in Hy]; try done;
        rewrite length_fmap, length_app; simpl; lia.
    + assert (i = length l') as -> by lia.
      rewrite lookup_app_l in Hx by (rewrite length_fmap, length_app; simpl; lia).
      rewrite fmap_app in Hx.
      rewrite lookup_app_r in Hx by (rewrite length_fmap; lia).
      rewrite length_fmap, Nat.sub_diag in Hx.
      rewrite lookup_app_r in Hy by (rewrite length_fmap, length_app; simpl; lia).
      rewrite length_fmap, length_app in Hy. simpl in Hy.
      replace (length l' + 1 - (length l' + 1)) with 0 in Hy by lia.
      simpl in Hx, Hy. by simplify_eq.
Qed.

(** The elements a walk to [(r, c)] consumes are the first [r] of [a] and
    the first [c] of [b]. *)
Lemma walk_transitions a b r c l :
  walk a b r c l ->
  omap fst (transitions l) = take r a ∧ omap snd (transitions l) = take c b.
Proof.
  induction 1 as [|r c r' c' l Hl [IHa IHb] Hmove Hr Hc]; [done|].
  destruct (walk_last _ _ _ _ _ Hl) as (l' & -> & _).
  rewrite transitions_snoc, !omap_app, IHa, IHb.
  unfold transition, cell_ref, Cell_get_coordinates, get_row_idx, get_col_idx,
    get_a_element, get_b_element. simpl.
  destruct Hmove as [[? ?]|[[? ?]|[? ?]]]; simpl in *; subst.
  - destruct (lookup_lt_is_Some_2 a r) as [x Hx]; [lia|].
    rewrite bool_decide_true by lia. rewrite bool_decide_false by lia.
    rewrite Hx. simpl. rewrite Nat.add_1_r, (take_S_r _ _ _ Hx).
    by rewrite app_nil_r.
  - destruct (lookup_lt_is_Some_2 a r) as [x Hx]; [lia|].
    destruct (lookup_lt_is_Some_2 b c) as [y Hy]; [lia|].
    rewrite !bool_decide_true by lia.
    rewrite Hx, Hy. simpl. by rewrite !Nat.add_1_r, (take_S_r _ _ _ Hx), (take_S_r _ _ _ Hy).
  - destruct (lookup_lt_is_Some_2 b c) as [y Hy]; [lia|].
    rewrite bool_decide_false by lia. rewrite bool_decide_true by lia.
    rewrite Hy. simpl. rewrite Nat.add_1_r, (take_S_r _ _ _ Hy).
    by rewrite app_nil_r.
Qed.

End Walks.

(** ** The claims about paths and the grid *)

Section Claims.
Context {num : Type} {NUM : Numeric num}.
Context {elt : Type} `{Countable elt}.
Variable LOG_SCALED : bool.

Implicit Types (a b : list elt) (p : @ViterbiPath num elt).

(** The constructor with [run=True] returns an aligner whose grid is well
    formed. *)
Lemma ViterbiAligner_init_run a b scores costs :
  exists self g,
    ViterbiAligner_init LOG_SCALED a b scores costs true = Some self
    ∧ scores_are_costs self = costs
    ∧ grid self = Some g ∧ grid_inv a b g.
Proof.
  unfold ViterbiAligner_init.
  destruct (align_initialize_grid LOG_SCALED
              {| a := a; b := b; alignment_scores := scores;
                 scores_are_costs := costs; grid := None |})
    as (self & g & Halign & _ & _ & _ & Hcosts & Hg & Hinv).
  by exists self, g.
Qed.

(** [grid[-1][-1]] of a well-formed grid is the cell at [(len(a), len(b))]. *)
Lemma last_cell_shape a b (g : list (list (@ViterbiCell num elt))) :
  shape_ok a b g ->
  exists cell, last_cell g = Some (length a, length b, cell)
               ∧ grid_get g (length a) (length b) = Some cell.
Proof.
  intros Hshape. pose proof Hshape as [Hlen Hrows].
  destruct (shape_grid_get_is_Some _ _ _ (length a) (length b) Hshape) as [cell Hcell];
    [lia..|].
  exists cell. split; [|done]. unfold last_cell, grid_get in *.
  rewrite last_lookup, Hlen, Nat.add_1_r. simpl.
  destruct (g !! length a) as [row|] eqn:Hrow; simplify_eq/=.
  destruct (Hrows _ _ Hrow) as [Hl _].
  rewrite last_lookup, Hl, Nat.add_1_r. simpl. rewrite Hcell. simpl.
  repeat f_equal; lia.
Qed.

(** C3. For every configuration the sweep runs to its end, and the
    coordinate sequence of every path then stored in any cell starts at
    (0,0) and moves between consecutive entries by (1,0), (1,1) or (0,1). *)
Theorem C3_path_coordinates_well_formed a b scores costs :
  exists self g,
    ViterbiAligner_init LOG_SCALED a b scores costs true = Some self
    ∧ grid self = Some g
    ∧ forall r c cell p,
        grid_get g r c = Some cell -> p ∈ paths cell ->
        Path_get_coordinates p !! 0 = Some (0, 0)
        ∧ forall i x y,
            Path_get_coordinates p !! i = Some x ->
            Path_get_coordinates p !! (i + 1) = Some y ->
            (y.1 = x.1 + 1 ∧ y.2 = x.2) ∨ (y.1 = x.1 + 1 ∧ y.2 = x.2 + 1)
            ∨ (y.1 = x.1 ∧ y.2 = x.2 + 1).
Proof.
  destruct (ViterbiAligner_init_run a b scores costs)
    as (self & g & Hinit & _ & Hg & _ & Hpaths).
  exists self, g. split_and!; [done..|].
  intros r c cell p Hcell Hp.
  apply (walk_coordinates a b r c). by eapply Hpaths.
Qed.

(** C4. [get_elements] raises nothing.  Its entry [i] pairs cell [i]'s A
    element if the row changes to cell [i+1] (else None) with cell [i]'s B
    element if the column changes (else None).  For a path with at least one
    cell, as the class documents its paths and as every path the sweep
    stores is, the result has exactly one entry less than [get_coordinates]
    has. *)
Theorem C4_get_elements_per_transition :
  (forall p,
      exists alignment,
        Path_get_elements p = Some alignment
        ∧ (cells p <> [] ->
           Z.of_nat (length alignment)
           = (Z.of_nat (length (Path_get_coordinates p)) - 1)%Z)
        ∧ forall i this_cell next_cell,
            cells p !! i = Some this_cell -> cells p !! (i + 1) = Some next_cell ->
            alignment !! i
            = Some (if bool_decide (row_idx this_cell <> row_idx next_cell)
                    then a_element this_cell else None,
                    if bool_decide (col_idx this_cell <> col_idx next_cell)
                    then b_element this_cell else None))
  ∧ (forall a b scores costs,
        exists self g,
          ViterbiAligner_init LOG_SCALED a b scores costs true = Some self
          ∧ grid self = Some g
          ∧ forall r c cell p,
              grid_get g r c = Some cell -> p ∈ paths cell ->
              exists alignment,
                Path_get_elements p = Some alignment
                ∧ Z.of_nat (length alignment)
                  = (Z.of_nat (length (Path_get_coordinates p)) - 1)%Z).
Proof.
  assert (Hlen : forall p, cells p <> [] ->
             Z.of_nat (length (transitions (cells p)))
             = (Z.of_nat (length (Path_get_coordinates p)) - 1)%Z).
  { intros p Hne. unfold Path_get_coordinates, _get_cell_properties_coordinates.
    rewrite transitions_length, length_map.
    destruct (cells p); [done|]. simpl. lia. }
  split.
  - intros p. exists (transitions (cells p)). split_and!.
    + apply Path_get_elements_transitions.
    + apply Hlen.
    + intros i this_cell next_cell Hthis Hnext.
      by rewrite (transitions_lookup _ _ _ _ Hthis Hnext).
  - intros a b scores costs.
    destruct (ViterbiAligner_init_run a b scores costs)
      as (self & g & Hinit & _ & Hg & _ & Hpaths).
    exists self, g. split_and!; [done..|].
    intros r c cell p Hcell Hp. exists (transitions (cells p)).
    split; [apply Path_get_elements_transitions|]. apply Hlen.
    destruct (walk_last _ _ _ _ _ (Hpaths _ _ _ _ Hcell Hp)) as (l & -> & _).
    by destruct l.
Qed.

(** C6. [initialize_grid] builds [len(a)+1] rows of [len(b)+1] cells each;
    the cell at (i,j) carries its position, has A element [a[i]] when
    [i < len(a)] and None when [i = len(a)], and B element [b[j]] when
    [j < len(b)] and None when [j = len(b)]. *)
Theorem C6_initialize_grid_cells (self : ViterbiAligner (num:=num) (elt:=elt)) :
  exists g,
    grid (initialize_grid self) = Some g
    ∧ length g = length (a self) + 1
    ∧ Forall (fun row => length row = length (b self) + 1) g
    ∧ forall i j, i <= length (a self) -> j <= length (b self) ->
        exists cell,
          grid_get g i j = Some cell
          ∧ Cell_get_coordinates (ref cell) = (i, j)
          ∧ (i < length (a self) ->
             exists x, a self !! i = Some x ∧ a_element (ref cell) = Some x)
          ∧ (i = length (a self) -> a_element (ref cell) = None)
          ∧ (j < length (b self) ->
             exists y, b self !! j = Some y ∧ b_element (ref cell) = Some y)
          ∧ (j = length (b self) -> b_element (ref cell) = None).
Proof.
  destruct (grid (initialize_grid self)) as [g|] eqn:Hg; [|done].
  pose proof (initialize_grid_shape _ _ Hg) as Hshape.
  pose proof Hshape as [Hlen Hrows].
  exists g. split_and!; [done..| |].
  - apply Forall_forall. intros row Hrow.
    apply list_elem_of_lookup in Hrow as [r Hrow]. by apply (Hrows r).
  - intros i j Hi Hj.
    destruct (shape_grid_get_is_Some _ _ _ i j Hshape) as [cell Hcell]; [done..|].
    destruct (shape_grid_get _ _ _ _ _ _ Hshape Hcell) as (Href & _ & _).
    exists cell. rewrite Href. split_and!; try done; simpl.
    + intros Hlt. destruct (lookup_lt_is_Some_2 (a self) i Hlt) as [x Hx]. eauto.
    + intros ->. apply lookup_ge_None. lia.
    + intros Hlt. destruct (lookup_lt_is_Some_2 (b self) j Hlt) as [y Hy]. eauto.
    + intros ->. apply lookup_ge_None. lia.
Qed.

(** C10. After the sweep the alignment of every path stored in the cell
    at (i,j) has, in order, the first [i] elements of [a] as its non-None
    A components and the first [j] elements of [b] as its non-None B
    components; the paths [get_all_paths] returns consume all of [a] and
    all of [b]. *)
Theorem C10_alignment_consumes_prefixes a b scores costs :
  exists self g,
    ViterbiAligner_init LOG_SCALED a b scores costs true = Some self
    ∧ grid self = Some g
    ∧ (forall i j cell p,
         grid_get g i j = Some cell -> p ∈ paths cell ->
         exists alignment,
           Path_get_elements p = Some alignment
           ∧ omap fst alignment = take i a ∧ omap snd alignment = take j b)
    ∧ exists all_paths,
        get_all_paths self = Some all_paths
        ∧ forall p, p ∈ all_paths ->
            exists alignment,
              Path_get_elements p = Some alignment
              ∧ omap fst alignment = a ∧ omap snd alignment = b.
Proof.
  destruct (ViterbiAligner_init_run a b scores costs)
    as (self & g & Hinit & _ & Hg & Hshape & Hpaths).
  assert (Hcells : forall i j cell p,
             grid_get g i j = Some cell -> p ∈ paths cell ->
             exists alignment,
               Path_get_elements p = Some alignment
               ∧ omap fst alignment = take i a ∧ omap snd alignment = take j b).
  { intros i j cell p Hcell Hp. exists (transitions (cells p)).
    split; [apply Path_get_elements_transitions|].
    apply walk_transitions. by eapply Hpaths. }
  exists self, g. split_and!; [done..|].
  destruct (last_cell_shape _ _ _ Hshape) as (cell & Hlast & Hcell).
  exists (paths cell). split.
  - unfold get_all_paths. rewrite Hg. simpl. by rewrite Hlast.
  - intros p Hp. destruct (Hcells _ _ _ _ Hcell Hp) as (al & Hal & Ha & Hb).
    exists al. by rewrite Ha, Hb, !firstn_all.
Qed.

End Claims.

(** ** The queries *)

Section Queries.
Context {num : Type} {NUM : Numeric num} {ORD : NumericOrder num}.
Context {elt : Type} `{Countable elt}.
Variable LOG_SCALED : bool.

Implicit Types (a b : list elt) (g : list (list (@ViterbiCell num elt))).

Lemma get_best_paths_sorts (self : ViterbiAligner) a b g cell :
  grid self = Some g -> shape_ok a b g ->
  grid_get g (length a) (length b) = Some cell ->
  get_all_paths self = Some (paths cell)
  ∧ get_best_paths self
    = Some (filter (extremal (scores_are_costs self) (paths cell)) (paths cell),
            set_grid self
              (alter (alter (sorted_cell (scores_are_costs self)) (length b))
                     (length a) g)).
Proof.
  intros Hg Hshape Hcell.
  destruct (last_cell_shape _ _ _ Hshape) as (cell' & Hlast & Hcell').
  assert (cell' = cell) as -> by congruence.
  unfold get_all_paths, get_best_paths. rewrite Hg. simpl. rewrite Hlast. simpl.
  split; [done|].
  rewrite Cell_get_best_paths_prefix. simpl.
  rewrite best_prefix_extremal. do 3 f_equal.
  apply list_eq. intros r. rewrite !list_lookup_alter.
  case_decide; [|done]. subst r. unfold grid_get in Hcell.
  destruct (g !! length a) as [row|]; simplify_eq/=. f_equal.
  apply list_eq. intros c. rewrite !list_lookup_alter.
  case_decide; [|done]. subst c. by rewrite Hcell.
Qed.

(** C1. [ViterbiCell.get_best_paths] raises nothing and returns exactly
    the paths of the cell whose score is extremal (minimal when scores are
    costs, maximal otherwise), every tied one and in their stored order; on
    a cell without paths that is the empty list.  On an aligner whose sweep
    has run, [get_best_paths] returns those of the paths [get_all_paths]
    returns. *)
Theorem C1_best_paths_are_the_extremal_paths :
  (forall costs (cell : @ViterbiCell num elt),
      exists cell',
        Cell_get_best_paths costs cell
        = Some (filter (extremal costs (paths cell)) (paths cell), cell')
        ∧ (paths cell = [] -> Cell_get_best_paths costs cell = Some ([], cell')))
  ∧ (forall a b scores costs,
        exists self all_paths self',
          ViterbiAligner_init LOG_SCALED a b scores costs true = Some self
          ∧ get_all_paths self = Some all_paths
          ∧ get_best_paths self
            = Some (filter (extremal costs all_paths) all_paths, self')).
Proof.
  split.
  - intros costs cell. eexists. rewrite Cell_get_best_paths_prefix.
    rewrite best_prefix_extremal. split; [done|]. by intros ->.
  - intros a b scores costs.
    destruct (ViterbiAligner_init_run LOG_SCALED a b scores costs)
      as (self & g & Hinit & Hcosts & Hg & Hshape & Hpaths).
    destruct (shape_grid_get_is_Some _ _ _ (length a) (length b) Hshape)
      as [cell Hcell]; [lia..|].
    destruct (get_best_paths_sorts self a b g cell) as [Hall Hbest]; [done..|].
    rewrite Hcosts in Hbest. by eexists self, _, _.
Qed.

(** C2, as the code has it.  [get_all_paths] is a read.  [get_best_paths]
    sorts the path list of the terminal cell in place: every cell keeps
    its fields and its paths up to their order, every cell but the
    terminal one is untouched, and from the first call on a further call
    returns the same result and changes nothing. *)
Theorem C2_best_paths_sorts_once a b scores costs :
  exists self g all_paths best self' g',
    ViterbiAligner_init LOG_SCALED a b scores costs true = Some self
    ∧ grid self = Some g
    ∧ get_all_paths self = Some all_paths
    ∧ get_best_paths self = Some (best, self')
    ∧ grid self' = Some g'
    ∧ (forall r c cell,
          grid_get g r c = Some cell ->
          exists cell',
            grid_get g' r c = Some cell'
            ∧ ref cell' = ref cell ∧ paths cell' ≡ₚ paths cell
            ∧ ((r, c) <> (length a, length b) -> cell' = cell))
    ∧ get_all_paths self' = Some (list_sort cmp_score (negb costs) all_paths)
    ∧ get_best_paths self' = Some (best, self').
Proof.
  destruct (ViterbiAligner_init_run LOG_SCALED a b scores costs)
    as (self & g & Hinit & Hcosts & Hg & Hshape & Hpaths).
  destruct (shape_grid_get_is_Some _ _ _ (length a) (length b) Hshape)
    as [cell Hcell]; [lia..|].
  destruct (get_best_paths_sorts self a b g cell) as [Hall Hbest]; [done..|].
  rewrite Hcosts in Hbest.
  set (g' := alter (alter (sorted_cell costs) (length b)) (length a) g) in *.
  assert (Hshape' : shape_ok a b g') by by apply alter_cell_shape.
  assert (Hcell' : grid_get g' (length a) (length b) = Some (sorted_cell costs cell)).
  { unfold g'. rewrite grid_get_alter, decide_True by done. by rewrite Hcell. }
  destruct (get_best_paths_sorts (set_grid self g') a b g' (sorted_cell costs cell))
    as [Hall' Hbest']; [done..|].
  simpl in Hbest'. rewrite Hcosts in Hbest'.
  exists self, g, (paths cell), (filter (extremal costs (paths cell)) (paths cell)),
    (set_grid self g'), g'.
  split_and!; try done.
  - intros r c cell0 Hcell0. unfold g'. rewrite grid_get_alter, Hcell0.
    case_decide as Hrc; simpl.
    + exists (sorted_cell costs cell0). split_and!; try done.
      * apply list_sort_Permutation.
      * intros Hne. destruct Hrc. congruence.
    + by exists cell0.
  - rewrite Hbest'. f_equal. f_equal.
    + rewrite <-!best_prefix_extremal. simpl.
      by rewrite (list_sort_id _ _ (list_sort_sorted _ _)).
    + assert (alter (alter (sorted_cell costs) (length b)) (length a) g' = g') as ->;
        [|by destruct self].
      unfold g'. rewrite list_alter_alter_eq.
      apply list_alter_ext; [|done]. intros row _. simpl.
      rewrite list_alter_alter_eq.
      apply list_alter_ext; [|done]. intros cell0 _. unfold sorted_cell. simpl.
      by rewrite (list_sort_id _ _ (list_sort_sorted _ _)).
Qed.

End Queries.

(** ** Moves under a score table *)

Section Moves.
Context {num : Type} {NUM : Numeric num}.
Context {elt : Type} `{Countable elt}.
Variable LOG_SCALED : bool.

Implicit Types (a b : list elt) (g : list (list (@ViterbiCell num elt))).

Lemma same_cell_neighbour a b g r c r' c' :
  shape_ok a b g ->
  same_cell (cell_ref a b r c) (ref <$> grid_get g r' c')
  = bool_decide (is_Some (grid_get g r' c') ∧ r = r' ∧ c = c').
Proof.
  intros Hshape. destruct (grid_get g r' c') as [cell|] eqn:Hcell; simpl.
  - destruct (shape_grid_get _ _ _ _ _ _ Hshape Hcell) as (-> & _ & _). simpl.
    apply bool_decide_ext. split; [by eauto|]. by intros [_ ?].
  - done.
Qed.

(** The score table decides each move: the deletion is looked up under
    (A element, None), the diagonal under (A element, B element), the
    insertion under (None, B element); a missing key leaves the grid as it
    is and a present one appends the extended path to the neighbour. *)
Lemma try_move_table (self : ViterbiAligner) table g0 r c cell path g r' c' next
    (a_key b_key : option elt) :
  shape_ok (a self) (b self) g0 ->
  alignment_scores self = Some table ->
  grid_get g0 r c = Some cell ->
  grid_get g0 r' c' = Some next ->
  (r' = r + 1 ∧ c' = c ∧ a_key = a_element (ref cell) ∧ b_key = None)
  ∨ (r' = r + 1 ∧ c' = c + 1 ∧ a_key = a_element (ref cell) ∧ b_key = b_element (ref cell))
  ∨ (r' = r ∧ c' = c + 1 ∧ a_key = None ∧ b_key = b_element (ref cell)) ->
  try_move LOG_SCALED self (ref cell)
    (ref <$> grid_get g0 (r + 1) c) (ref <$> grid_get g0 (r + 1) (c + 1))
    (ref <$> grid_get g0 r (c + 1)) path g (Some (ref next))
  = match table !! a_key ≫= (.!! b_key) with
    | None => g
    | Some move_score =>
        paths_append g (ref next)
          {| cells := cells path ++ [ref next];
             score := DEFAULT_SCORE_COMBINATION LOG_SCALED (score path) move_score |}
    end.
Proof.
  intros Hshape Htable Hcell Hnext Hkind. unfold try_move. rewrite Htable.
  destruct (shape_grid_get _ _ _ _ _ _ Hshape Hnext) as (Href & _ & _).
  rewrite Href, !(same_cell_neighbour _ _ _ _ _ _ _ Hshape).
  unfold get_a_element, get_b_element.
  destruct Hkind as [(-> & -> & -> & ->)|[(-> & -> & -> & ->)|(-> & -> & -> & ->)]].
  - rewrite (bool_decide_eq_false_2 (_ ∧ r + 1 = r + 1 ∧ c = c + 1)) by lia.
    rewrite (bool_decide_eq_true_2 (_ ∧ r + 1 = r + 1 ∧ c = c)) by eauto.
    rewrite (bool_decide_eq_false_2 (_ ∧ r + 1 = r ∧ c = c + 1)) by lia.
    done.
  - rewrite (bool_decide_eq_true_2 (_ ∧ r + 1 = r + 1 ∧ c + 1 = c + 1)) by eauto.
    rewrite (bool_decide_eq_false_2 (_ ∧ r + 1 = r + 1 ∧ c + 1 = c)) by lia.
    rewrite (bool_decide_eq_false_2 (_ ∧ r + 1 = r ∧ c + 1 = c + 1)) by lia.
    done.
  - rewrite (bool_decide_eq_false_2 (_ ∧ r = r + 1 ∧ c + 1 = c + 1)) by lia.
    rewrite (bool_decide_eq_false_2 (_ ∧ r = r + 1 ∧ c + 1 = c)) by lia.
    rewrite (bool_decide_eq_true_2 (_ ∧ r = r ∧ c + 1 = c + 1)) by eauto.
    done.
Qed.

End Moves.

(** ** Laws of the rationals *)

#[export] Instance Q_NumericOrder : NumericOrder Q.
Proof.
  split; simpl.
  - intros x. apply Qeq_alt. reflexivity.
  - intros x y. symmetry. apply Qcompare_antisym.
  - intros x y z Hxy Hyz. apply Qle_alt. apply Qle_alt in Hxy, Hyz.
    by apply Qle_trans with y.
Qed.

#[export] Instance Q_NumericIdentity : NumericIdentity Q.
Proof.
  split; simpl; intros x; apply Qeq_alt; unfold Qlog; simpl.
  - apply Qplus_0_l.
  - apply Qplus_0_r.
  - apply Qmult_1_l.
  - apply Qmult_1_r.
Qed.

(** ** The claims about scoring, the examples and determinism *)

(** C5. Under a score table a move whose key pair is missing (deletion:
    (A element, None); diagonal: (A element, B element); insertion: (None, B
    element)) leaves the grid as it is: nothing is appended and nothing is
    raised.  For a = "a", b = "ab" and the table {"a": {"a": 1}} the sweep
    runs to its end and [get_all_paths] returns the empty list. *)
Theorem C5_missing_key_skips_the_move :
  (forall (num : Type) (NUM : Numeric num) (elt : Type) (EQ : EqDecision elt)
          (CNT : Countable elt) (LOG_SCALED : bool)
          (self : ViterbiAligner (num:=num) (elt:=elt)) table
          (g0 g : list (list (@ViterbiCell num elt))) r c cell path,
      shape_ok (a self) (b self) g0 ->
      alignment_scores self = Some table ->
      grid_get g0 r c = Some cell ->
      let delete_cell := ref <$> grid_get g0 (r + 1) c in
      let diag_cell := ref <$> grid_get g0 (r + 1) (c + 1) in
      let insert_cell := ref <$> grid_get g0 r (c + 1) in
      let move := try_move LOG_SCALED self (ref cell) delete_cell diag_cell insert_cell path g in
      (table !! a_element (ref cell) ≫= (.!! None) = None -> move delete_cell = g)
      ∧ (table !! a_element (ref cell) ≫= (.!! b_element (ref cell)) = None ->
         move diag_cell = g)
      ∧ (table !! None ≫= (.!! b_element (ref cell)) = None -> move insert_cell = g))
  ∧ (forall (num : Type) (NUM : Numeric num) (LOG_SCALED costs : bool),
        exists self,
          ViterbiAligner_init LOG_SCALED ["a"%string] ["a"%string; "b"%string]
            (Some {[ Some "a"%string := {[ Some "a"%string := num_one ]} ]}) costs true
          = Some self
          ∧ get_all_paths self = Some []).
Proof.
  split.
  - intros num NUM elt EQ CNT LOG_SCALED self table g0 g r c cell path
      Hshape Htable Hcell. simpl.
    split_and!; intros Hkey.
    + destruct (grid_get g0 (r + 1) c) as [next|] eqn:Hnext; [|done].
      pose proof (try_move_table LOG_SCALED self table g0 r c cell path g (r + 1) c next
                    (a_element (ref cell)) None Hshape Htable Hcell Hnext) as Hmove.
      rewrite Hnext, Hkey in Hmove. apply Hmove. by left.
    + destruct (grid_get g0 (r + 1) (c + 1)) as [next|] eqn:Hnext; [|done].
      pose proof (try_move_table LOG_SCALED self table g0 r c cell path g (r + 1) (c + 1)
                    next (a_element (ref cell)) (b_element (ref cell))
                    Hshape Htable Hcell Hnext) as Hmove.
      rewrite Hnext, Hkey in Hmove. apply Hmove. by right; left.
    + destruct (grid_get g0 r (c + 1)) as [next|] eqn:Hnext; [|done].
      pose proof (try_move_table LOG_SCALED self table g0 r c cell path g r (c + 1) next
                    None (b_element (ref cell)) Hshape Htable Hcell Hnext) as Hmove.
      rewrite Hnext, Hkey in Hmove. apply Hmove. by right; right.
  - intros num NUM LOG_SCALED costs. eexists. split; vm_compute; reflexivity.
Qed.

(** C7. Aligning "ab" with "ab" under the default scores and
    [scores_are_costs=False] makes [get_best_paths] return the diagonal path
    alone, whose alignment is [("a","a"), ("b","b")]: with binary64 scores
    and with exact rational scores, in either scale. *)
Theorem C7_ab_ab_best_path_is_diagonal :
  (forall LOG_SCALED : bool,
      exists self best self' p,
        ViterbiAligner_init (num:=float) LOG_SCALED ["a"%string; "b"%string]
          ["a"%string; "b"%string] None false true = Some self
        ∧ get_best_paths self = Some (best, self')
        ∧ best = [p]
        ∧ Path_get_coordinates p = [(0, 0); (1, 1); (2, 2)]
        ∧ Path_get_elements p
          = Some [(Some "a"%string, Some "a"%string); (Some "b"%string, Some "b"%string)])
  ∧ (forall LOG_SCALED : bool,
        exists self best self' p,
          ViterbiAligner_init (num:=Q) LOG_SCALED ["a"%string; "b"%string]
            ["a"%string; "b"%string] None false true = Some self
          ∧ get_best_paths self = Some (best, self')
          ∧ best = [p]
          ∧ Path_get_coordinates p = [(0, 0); (1, 1); (2, 2)]
          ∧ Path_get_elements p
            = Some [(Some "a"%string, Some "a"%string); (Some "b"%string, Some "b"%string)]).
Proof.
  split; intros [|]; eexists _, _, _, _; split_and!; vm_compute; reflexivity.
Qed.

(** C8. Aligning the empty sequence with the empty sequence leaves one path
    in the terminal cell: the seeded path, holding the cell (0,0) alone.  Its
    score is [DEFAULT_GOOD_SCORE], that is [log(1)] when the module is log
    scaled and [1] otherwise, which is neutral for the score combination of
    that scale. *)
Theorem C8_empty_sequences_give_the_origin_path
    (num : Type) (NUM : Numeric num) (ID : NumericIdentity num)
    (elt : Type) (EQ : EqDecision elt) (CNT : Countable elt)
    (LOG_SCALED : bool) scores costs :
  exists self p,
    ViterbiAligner_init (elt:=elt) LOG_SCALED [] [] scores costs true = Some self
    ∧ get_all_paths self = Some [p]
    ∧ Path_get_coordinates p = [(0, 0)]
    ∧ Path_get_elements p = Some []
    ∧ score p = (if LOG_SCALED then log num_one else num_one)
    ∧ forall x, cmp (DEFAULT_SCORE_COMBINATION LOG_SCALED (score p) x) x = Eq
                ∧ cmp (DEFAULT_SCORE_COMBINATION LOG_SCALED x (score p)) x = Eq.
Proof.
  eexists _, _. split_and!; try reflexivity.
  intros x. simpl. unfold DEFAULT_SCORE_COMBINATION, DEFAULT_GOOD_SCORE.
  destruct LOG_SCALED; split.
  - apply add_log_one_l.
  - apply add_log_one_r.
  - apply mul_one_l.
  - apply mul_one_r.
Qed.

(** C9. Two runs on equal inputs end with the same aligner: every cell of
    one has a cell at the same place in the other, and their path lists
    agree path by path, in order, on coordinates, alignment and score. *)
Theorem C9_equal_inputs_equal_grids
    (num : Type) (NUM : Numeric num)
    (elt : Type) (EQ : EqDecision elt) (CNT : Countable elt)
    (LOG_SCALED : bool) (a1 b1 a2 b2 : list elt) scores1 scores2 costs1 costs2 :
  a1 = a2 -> b1 = b2 -> scores1 = scores2 -> costs1 = costs2 ->
  exists self1 self2 g1 g2,
    ViterbiAligner_init (num:=num) LOG_SCALED a1 b1 scores1 costs1 true = Some self1
    ∧ ViterbiAligner_init LOG_SCALED a2 b2 scores2 costs2 true = Some self2
    ∧ grid self1 = Some g1 ∧ grid self2 = Some g2
    ∧ length g1 = length g2
    ∧ forall r c cell1,
        grid_get g1 r c = Some cell1 ->
        exists cell2,
          grid_get g2 r c = Some cell2
          ∧ Forall2 (fun p1 p2 =>
                       Path_get_coordinates p1 = Path_get_coordinates p2
                       ∧ Path_get_elements p1 = Path_get_elements p2
                       ∧ score p1 = score p2)
                    (paths cell1) (paths cell2).
Proof.
  intros <- <- <- <-.
  destruct (ViterbiAligner_init_run LOG_SCALED a1 b1 scores1 costs1)
    as (self & g & Hinit & _ & Hg & _).
  exists self, self, g, g. split_and!; try done.
  intros r c cell Hcell. exists cell. split; [done|].
  apply Forall2_same_length_lookup_2; [done|].
  intros i p1 p2 Hp1 Hp2. by simplify_eq.
Qed.

(** C2 fails as stated.  With a = "a", b = "a", the default scores and
    [scores_are_costs=True] the terminal cell holds the diagonal path first;
    [get_best_paths] sorts it last, so the aligner is not what it was and
    [get_all_paths] no longer returns what it returned before. *)
Lemma C2_get_best_paths_reorders_the_terminal_cell :
  ~ (forall self best self',
        ViterbiAligner_init (num:=float) true ["a"%string] ["a"%string] None true true
        = Some self ->
        get_best_paths self = Some (best, self') ->
        self' = self ∧ get_all_paths self' = get_all_paths self).
Proof.
  intros Hclaim.
  assert (exists (self : ViterbiAligner (num:=float) (elt:=string)) best self',
             ViterbiAligner_init (num:=float) true ["a"%string] ["a"%string] None true true
             = Some self
             ∧ get_best_paths self = Some (best, self')
             ∧ fmap (M:=list) (Path_get_coordinates (num:=float) (elt:=string)) <$> get_all_paths self
               = Some [[(0, 0); (1, 1)]; [(0, 0); (0, 1); (1, 1)]; [(0, 0); (1, 0); (1, 1)]]
             ∧ fmap (M:=list) (Path_get_coordinates (num:=float) (elt:=string)) <$> get_all_paths self'
               = Some [[(0, 0); (0, 1); (1, 1)]; [(0, 0); (1, 0); (1, 1)]; [(0, 0); (1, 1)]])
    as (self & best & self' & Hinit & Hbest & Hbefore & Hafter).
  { eexists _, _, _. split_and!; vm_compute; reflexivity. }
  destruct (Hclaim self best self' Hinit Hbest) as [_ Hsame].
  rewrite Hsame, Hbefore in Hafter. discriminate Hafter.
Qed.

(** ** The theorems at concrete inputs *)

Lemma C1_best_paths_witness :
  exists self all_paths self',
    ViterbiAligner_init (num:=Q) true ["a"%string] ["a"%string] None true true = Some self
    ∧ get_all_paths self = Some all_paths
    ∧ get_best_paths self = Some (filter (extremal true all_paths) all_paths, self').
Proof.
  exact (proj2 (C1_best_paths_are_the_extremal_paths (ORD:=Q_NumericOrder) true)
           ["a"%string] ["a"%string] None true).
Defined.

Lemma C2_best_paths_sorts_once_witness :
  exists self g all_paths best self' g',
    ViterbiAligner_init (num:=Q) true ["a"%string] ["a"%string] None true true = Some self
    ∧ grid self = Some g
    ∧ get_all_paths self = Some all_paths
    ∧ get_best_paths self = Some (best, self')
    ∧ grid self' = Some g'
    ∧ (forall r c cell,
          grid_get g r c = Some cell ->
          exists cell',
            grid_get g' r c = Some cell'
            ∧ ref cell' = ref cell ∧ paths cell' ≡ₚ paths cell
            ∧ ((r, c) <> (1, 1) -> cell' = cell))
    ∧ get_all_paths self' = Some (list_sort cmp_score false all_paths)
    ∧ get_best_paths self' = Some (best, self').
Proof.
  exact (C2_best_paths_sorts_once (ORD:=Q_NumericOrder) true
           ["a"%string] ["a"%string] None true).
Defined.

Lemma C8_empty_sequences_witness :
  exists self p,
    ViterbiAligner_init (num:=Q) (elt:=string) true [] [] None false true = Some self
    ∧ get_all_paths self = Some [p]
    ∧ Path_get_coordinates p = [(0, 0)]
    ∧ Path_get_elements p = Some []
    ∧ score p = Qlog 1
    ∧ forall x, (score p + x ?= x)%Q = Eq ∧ (x + score p ?= x)%Q = Eq.
Proof.
  exact (C8_empty_sequences_give_the_origin_path Q Q_Numeric Q_NumericIdentity
           string _ _ true None false).
Defined.

Lemma C9_equal_inputs_witness :
  exists self1 self2 g1 g2,
    ViterbiAligner_init (num:=Q) true ["a"%string] ["a"%string; "b"%string] None false true
    = Some self1
    ∧ ViterbiAligner_init true ["a"%string] ["a"%string; "b"%string] None false true
      = Some self2
    ∧ grid self1 = Some g1 ∧ grid self2 = Some g2
    ∧ length g1 = length g2
    ∧ forall r c cell1,
        grid_get g1 r c = Some cell1 ->
        exists cell2,
          grid_get g2 r c = Some cell2
          ∧ Forall2 (fun p1 p2 =>
                       Path_get_coordinates p1 = Path_get_coordinates p2
                       ∧ Path_get_elements p1 = Path_get_elements p2
                       ∧ score p1 = score p2)
                    (paths cell1) (paths cell2).
Proof.
  exact (C9_equal_inputs_equal_grids Q Q_Numeric string _ _ true
           ["a"%string] ["a"%string; "b"%string] ["a"%string] ["a"%string; "b"%string]
           None None false false eq_refl eq_refl eq_refl eq_refl).
Defined.

(** * The sweep, cell by cell *)

(** ** Grids that grow *)

Section Grows.
Context {num : Type} {NUM : Numeric num}.
Context {elt : Type} `{Countable elt}.
Variable LOG_SCALED : bool.

Implicit Types (g : list (list (@ViterbiCell num elt))) (p : @ViterbiPath num elt).
Implicit Types (a b : list elt) (self : @ViterbiAligner num elt _ _).

Lemma add_paths_nil (c : @ViterbiCell num elt) : add_paths [] c = c.
Proof. destruct c. unfold add_paths. simpl. by rewrite app_nil_r. Qed.

Lemma grows_refl g : grows g g (fun _ _ => []).
Proof.
  intros r c. destruct (grid_get g r c) as [cell|]; simpl; [|done].
  by rewrite add_paths_nil.
Qed.

Lemma grows_trans g g' g'' f f' :
  grows g g' f -> grows g' g'' f' -> grows g g'' (fun r c => f r c ++ f' r c).
Proof.
  intros Hf Hf' r c. rewrite Hf', Hf.
  destruct (grid_get g r c) as [cell|]; simpl; [|done].
  unfold add_paths. simpl. by rewrite app_assoc.
Qed.

Lemma grows_ext g g' f f' :
  (forall r c, f r c = f' r c) -> grows g g' f -> grows g g' f'.
Proof. intros Hff' Hf r c. by rewrite Hf, Hff'. Qed.

Lemma grows_paths_append g rf p :
  grows g (paths_append g rf p)
    (fun r c => if decide (r = row_idx rf ∧ c = col_idx rf) then [p] else []).
Proof.
  intros r c. rewrite grid_get_paths_append. case_decide; [done|].
  destruct (grid_get g r c) as [cell|]; simpl; [|done]. by rewrite add_paths_nil.
Qed.

Lemma try_move_shape self a b cell d_cell g_cell i_cell p g next :
  shape_ok a b g ->
  shape_ok a b (try_move LOG_SCALED self cell d_cell g_cell i_cell p g next).
Proof.
  intros Hshape. unfold try_move. destruct next as [rf|]; [|done].
  destruct (same_cell _ g_cell); simpl;
    (match goal with
     | |- context [match ?ms with Some _ => _ | None => _ end] => destruct ms
     end; [|done]); by apply paths_append_shape.
Qed.

Lemma move_target_inj k k' r c : move_target k r c = move_target k' r c -> k = k'.
Proof. destruct k, k'; simpl; intros [=]; try done; lia. Qed.

(** One turn of the loop over the neighbours is one extension. *)
Lemma try_move_extend self g0 g r c cell path k :
  shape_ok (a self) (b self) g0 ->
  grid_get g0 r c = Some cell ->
  try_move LOG_SCALED self (ref cell)
    (ref <$> grid_get g0 (r + 1) c) (ref <$> grid_get g0 (r + 1) (c + 1))
    (ref <$> grid_get g0 r (c + 1)) path g
    (ref <$> grid_get g0 (move_target k r c).1 (move_target k r c).2)
  = match grid_get g0 (move_target k r c).1 (move_target k r c).2 with
    | None => g
    | Some next =>
        match extend LOG_SCALED self (ref cell) k (ref next) path with
        | None => g
        | Some new_path => paths_append g (ref next) new_path
        end
    end.
Proof.
  intros Hshape Hcell.
  destruct (grid_get g0 (move_target k r c).1 (move_target k r c).2)
    as [next|] eqn:Hnext; [|done].
  simpl. unfold try_move, extend, move_score.
  destruct (shape_grid_get _ _ _ _ _ _ Hshape Hnext) as (Href & _ & _).
  rewrite Href, !(same_cell_neighbour _ _ _ _ _ _ _ Hshape).
  unfold get_a_element, get_b_element.
  destruct k; simpl in *.
  - rewrite (bool_decide_eq_false_2 (_ ∧ r + 1 = r + 1 ∧ c = c + 1)) by lia.
    rewrite (bool_decide_eq_true_2 (_ ∧ r + 1 = r + 1 ∧ c = c)) by eauto.
    rewrite (bool_decide_eq_false_2 (_ ∧ r + 1 = r ∧ c = c + 1)) by lia.
    match goal with |- match ?x with _ => _ end = _ => by destruct x end.
  - rewrite (bool_decide_eq_true_2 (_ ∧ r + 1 = r + 1 ∧ c + 1 = c + 1)) by eauto.
    rewrite (bool_decide_eq_false_2 (_ ∧ r + 1 = r + 1 ∧ c + 1 = c)) by lia.
    rewrite (bool_decide_eq_false_2 (_ ∧ r + 1 = r ∧ c + 1 = c + 1)) by lia.
    match goal with |- match ?x with _ => _ end = _ => by destruct x end.
  - rewrite (bool_decide_eq_false_2 (_ ∧ r = r + 1 ∧ c + 1 = c + 1)) by lia.
    rewrite (bool_decide_eq_false_2 (_ ∧ r = r + 1 ∧ c + 1 = c)) by lia.
    rewrite (bool_decide_eq_true_2 (_ ∧ r = r ∧ c + 1 = c + 1)) by eauto.
    match goal with |- match ?x with _ => _ end = _ => by destruct x end.
Qed.

(** The same turn, as growth of the grid. *)
Lemma grows_try_move self g0 g r0 c0 cell path k :
  shape_ok (a self) (b self) g0 -> shape_ok (a self) (b self) g ->
  grid_get g0 r0 c0 = Some cell ->
  grows g
    (try_move LOG_SCALED self (ref cell)
       (ref <$> grid_get g0 (r0 + 1) c0) (ref <$> grid_get g0 (r0 + 1) (c0 + 1))
       (ref <$> grid_get g0 r0 (c0 + 1)) path g
       (ref <$> grid_get g0 (move_target k r0 c0).1 (move_target k r0 c0).2))
    (fun r c =>
       if decide ((r, c) = move_target k r0 c0)
       then option_list (extend LOG_SCALED self (cell_ref (a self) (b self) r0 c0) k
                           (cell_ref (a self) (b self) r c) path)
       else []).
Proof.
  intros Hshape0 Hshape Hcell.
  rewrite (try_move_extend self g0 g r0 c0 cell path k Hshape0 Hcell).
  destruct (shape_grid_get _ _ _ _ _ _ Hshape0 Hcell) as (Hrefc & _ & _).
  destruct (move_target k r0 c0) as [r' c'] eqn:Htarget. simpl.
  destruct (grid_get g0 r' c') as [next|] eqn:Hnext.
  - destruct (shape_grid_get _ _ _ _ _ _ Hshape0 Hnext) as (Href & _ & _).
    rewrite Href, Hrefc.
    destruct (extend _ _ _ _ _ path) as [new_path|] eqn:Hext.
    + eapply grows_ext; [|apply grows_paths_append]. intros r c. simpl.
      destruct (decide (r = r' ∧ c = c')) as [[-> ->]|Hne].
      * rewrite decide_True by done. by rewrite Hext.
      * rewrite decide_False; [done|]. intros [= -> ->]. by apply Hne.
    + eapply grows_ext; [|apply grows_refl]. intros r c. simpl.
      case_decide as Hrc; [|done]. injection Hrc as -> ->. by rewrite Hext.
  - intros r c. case_decide as Hrc.
    + injection Hrc as -> ->.
      destruct (grid_get g r' c') as [cell'|] eqn:Hcell'; [|done].
      destruct (shape_grid_get _ _ _ _ _ _ Hshape Hcell') as (_ & Hr' & Hc').
      destruct (shape_grid_get_is_Some _ _ _ _ _ Hshape0 Hr' Hc') as [? ?]. congruence.
    + destruct (grid_get g r c); simpl; [|done]. by rewrite add_paths_nil.
Qed.

End Grows.

(** ** One visit *)

Section Visit.
Context {num : Type} {NUM : Numeric num}.
Context {elt : Type} `{Countable elt}.
Variable LOG_SCALED : bool.

Implicit Types (g : list (list (@ViterbiCell num elt))) (p : @ViterbiPath num elt).
Implicit Types (self : @ViterbiAligner num elt _ _).

Lemma omap_cons_option_list {A B} (f : A -> option B) x l :
  omap f (x :: l) = option_list (f x) ++ omap f l.
Proof. simpl. by destruct (f x). Qed.

Lemma appended_nil self r0 c0 r c : appended LOG_SCALED self r0 c0 [] r c = [].
Proof. unfold appended. by repeat case_decide. Qed.

Lemma appended_cons self r0 c0 p ps r c :
  appended LOG_SCALED self r0 c0 (p :: ps) r c
  = appended LOG_SCALED self r0 c0 [p] r c ++ appended LOG_SCALED self r0 c0 ps r c.
Proof.
  unfold appended. repeat case_decide; try done;
    by rewrite omap_cons_option_list, (omap_cons_option_list _ p []), app_nil_r.
Qed.

(** The three turns for one path. *)
Lemma grows_one_path self g0 g r0 c0 cell path :
  shape_ok (a self) (b self) g0 -> shape_ok (a self) (b self) g ->
  grid_get g0 r0 c0 = Some cell ->
  let delete_cell := ref <$> grid_get g0 (r0 + 1) c0 in
  let diag_cell := ref <$> grid_get g0 (r0 + 1) (c0 + 1) in
  let insert_cell := ref <$> grid_get g0 r0 (c0 + 1) in
  let g' := foldl (try_move LOG_SCALED self (ref cell) delete_cell diag_cell insert_cell path)
              g [delete_cell; diag_cell; insert_cell] in
  shape_ok (a self) (b self) g' ∧ grows g g' (appended LOG_SCALED self r0 c0 [path]).
Proof.
  intros Hshape0 Hshape Hcell. simpl.
  set (d := ref <$> grid_get g0 (r0 + 1) c0).
  set (dg := ref <$> grid_get g0 (r0 + 1) (c0 + 1)).
  set (i := ref <$> grid_get g0 r0 (c0 + 1)).
  set (g1 := try_move LOG_SCALED self (ref cell) d dg i path g d).
  set (g2 := try_move LOG_SCALED self (ref cell) d dg i path g1 dg).
  set (g3 := try_move LOG_SCALED self (ref cell) d dg i path g2 i).
  assert (Hs1 : shape_ok (a self) (b self) g1) by by apply try_move_shape.
  assert (Hs2 : shape_ok (a self) (b self) g2) by by apply try_move_shape.
  split; [by apply try_move_shape|].
  pose proof (grows_try_move LOG_SCALED self g0 g r0 c0 cell path Delete
                Hshape0 Hshape Hcell) as H1.
  pose proof (grows_try_move LOG_SCALED self g0 g1 r0 c0 cell path Diag
                Hshape0 Hs1 Hcell) as H2.
  pose proof (grows_try_move LOG_SCALED self g0 g2 r0 c0 cell path Insert
                Hshape0 Hs2 Hcell) as H3.
  eapply grows_ext; [|exact (grows_trans _ _ _ _ _ (grows_trans _ _ _ _ _ H1 H2) H3)].
  intros r c. unfold appended. simpl.
  repeat case_decide; simplify_eq; try lia; simpl; rewrite ?app_nil_r; try done;
    match goal with
    | |- context [extend ?l ?s ?x ?k ?y ?q] => by destruct (extend l s x k y q)
    end.
Qed.

(** The loop over the paths of the visited cell. *)
Lemma grows_all_paths self g0 r0 c0 cell ps g :
  shape_ok (a self) (b self) g0 -> shape_ok (a self) (b self) g ->
  grid_get g0 r0 c0 = Some cell ->
  let delete_cell := ref <$> grid_get g0 (r0 + 1) c0 in
  let diag_cell := ref <$> grid_get g0 (r0 + 1) (c0 + 1) in
  let insert_cell := ref <$> grid_get g0 r0 (c0 + 1) in
  let g' := foldl (fun g path =>
                     foldl (try_move LOG_SCALED self (ref cell) delete_cell diag_cell
                              insert_cell path)
                           g [delete_cell; diag_cell; insert_cell])
                  g ps in
  shape_ok (a self) (b self) g' ∧ grows g g' (appended LOG_SCALED self r0 c0 ps).
Proof.
  intros Hshape0 Hshape Hcell. cbv zeta. revert g Hshape.
  induction ps as [|p ps IH]; intros g Hshape.
  - split; [done|]. eapply grows_ext; [|apply grows_refl].
    intros r c. by rewrite appended_nil.
  - cbn [foldl].
    destruct (grows_one_path self g0 g r0 c0 cell p Hshape0 Hshape Hcell) as [Hs1 Hg1].
    cbv zeta in Hs1, Hg1.
    destruct (IH _ Hs1) as [Hs2 Hg2]. split; [done|].
    eapply grows_ext; [|exact (grows_trans _ _ _ _ _ Hg1 Hg2)].
    intros r c. by rewrite (appended_cons self r0 c0 p ps).
Qed.

(** A visit appends to the three neighbours the extensions of the paths of
    the visited cell, in the order of that cell's list, and raises nothing. *)
Lemma visit_grows self g r0 c0 cell :
  shape_ok (a self) (b self) g -> grid_get g r0 c0 = Some cell ->
  exists g',
    visit LOG_SCALED self r0 g c0 = Some g'
    ∧ shape_ok (a self) (b self) g'
    ∧ grows g g' (appended LOG_SCALED self r0 c0 (paths cell)).
Proof.
  intros Hshape Hcell. unfold visit. rewrite Hcell. cbn [mbind option_bind].
  eexists. split; [done|].
  apply (grows_all_paths self g r0 c0 cell (paths cell) g Hshape Hshape Hcell).
Qed.

End Visit.

(** ** The sweep gathers each cell's paths from its three sources *)

Section Recurrence.
Context {num : Type} {NUM : Numeric num}.
Context {elt : Type} `{Countable elt}.
Variable LOG_SCALED : bool.

Implicit Types (g : list (list (@ViterbiCell num elt))) (p : @ViterbiPath num elt).
Implicit Types (self : @ViterbiAligner num elt _ _).

(** A loop over a range whose body moves an indexed invariant one step. *)
Lemma for_each_seq_inv {St : Type} (P : nat -> St -> Prop) (body : St -> nat -> option St)
    (start len : nat) (s : St) :
  (forall i s, start <= i < start + len -> P i s ->
               exists s', body s i = Some s' ∧ P (i + 1) s') ->
  P start s -> exists s', for_each body s (seq start len) = Some s' ∧ P (start + len) s'.
Proof.
  revert start s. induction len as [|len IH]; intros start s Hbody Hs; simpl.
  - exists s. by rewrite Nat.add_0_r.
  - destruct (Hbody start s) as (s' & -> & Hs'); [lia|done|]. simpl.
    destruct (IH (S start) s') as (s'' & Hloop & Hs'').
    + intros i s0 Hi. apply Hbody. lia.
    + by rewrite Nat.add_1_r in Hs'.
    + exists s''. split; [done|]. by rewrite <-Nat.add_succ_comm.
Qed.

Lemma move_source_target k r c r0 c0 :
  move_source k r c = Some (r0, c0) <-> (r, c) = move_target k r0 c0.
Proof.
  destruct k, r as [|r], c as [|c]; simpl; split; intros [=]; subst;
    try done; try lia; repeat f_equal; lia.
Qed.

Lemma visited_self r0 c0 : visited r0 c0 r0 c0 = false.
Proof. apply bool_decide_eq_false. lia. Qed.

Lemma visited_next_self r0 c0 : visited r0 (c0 + 1) r0 c0 = true.
Proof. apply bool_decide_eq_true. lia. Qed.

Lemma visited_next_other r0 c0 r c :
  (r, c) <> (r0, c0) -> visited r0 (c0 + 1) r c = visited r0 c0 r c.
Proof.
  intros Hne. apply bool_decide_ext. split; [|lia].
  intros [?|[-> ?]]; [lia|]. destruct (decide (c = c0)) as [->|]; [done|lia].
Qed.

Lemma appended_visited self r0 c0 ps r c :
  visited r0 c0 r c = true \/ (r, c) = (r0, c0) -> appended LOG_SCALED self r0 c0 ps r c = [].
Proof.
  intros Hvis. unfold appended. simpl.
  assert (r < r0 ∨ (r = r0 ∧ c <= c0)) as Hrc.
  { destruct Hvis as [Hvis%bool_decide_eq_true|[= -> ->]]; lia. }
  repeat case_decide; simplify_eq; try done; lia.
Qed.

Lemma arrivals_unvisited self g vis k r c :
  (forall r' c', move_source k r c = Some (r', c') -> vis r' c' = false) ->
  arrivals LOG_SCALED self g vis k r c = [].
Proof.
  intros Hvis. unfold arrivals. destruct (move_source k r c) as [[r' c']|]; [|done].
  by rewrite (Hvis r' c').
Qed.

Lemma arrivals_ext self g vis vis' k r c :
  (forall r' c', is_Some (grid_get g r' c') -> vis r' c' = vis' r' c') ->
  arrivals LOG_SCALED self g vis k r c = arrivals LOG_SCALED self g vis' k r c.
Proof.
  intros Hvis. unfold arrivals. destruct (move_source k r c) as [[r' c']|]; [|done].
  destruct (grid_get g r' c') as [source|] eqn:Hsource.
  - by rewrite (Hvis r' c') by (rewrite Hsource; eauto).
  - by destruct (vis r' c'), (vis' r' c').
Qed.

(** What a visit of [(r0, c0)] adds to the arrivals of a cell. *)
Lemma arrivals_step self g g' r0 c0 cell k r c :
  shape_ok (a self) (b self) g -> grid_get g r0 c0 = Some cell ->
  grows g g' (appended LOG_SCALED self r0 c0 (paths cell)) ->
  arrivals LOG_SCALED self g' (visited r0 (c0 + 1)) k r c
  = arrivals LOG_SCALED self g (visited r0 c0) k r c
    ++ (if decide ((r, c) = move_target k r0 c0)
        then omap (extend LOG_SCALED self (cell_ref (a self) (b self) r0 c0) k
                     (cell_ref (a self) (b self) r c)) (paths cell)
        else []).
Proof.
  intros Hshape Hcell Hgrows. unfold arrivals.
  destruct (move_source k r c) as [[r' c']|] eqn:Hsrc.
  - rewrite Hgrows.
    destruct (decide ((r', c') = (r0, c0))) as [[= -> ->]|Hne].
    + rewrite visited_self, visited_next_self, Hcell. simpl.
      rewrite appended_visited by (by right). rewrite app_nil_r.
      destruct (shape_grid_get _ _ _ _ _ _ Hshape Hcell) as (-> & _ & _).
      apply move_source_target in Hsrc. by rewrite decide_True.
    + rewrite (visited_next_other _ _ _ _ Hne).
      rewrite decide_False, app_nil_r.
      2:{ intros Htarget%move_source_target. congruence. }
      destruct (visited r0 c0 r' c') eqn:Hvis; [|done].
      rewrite appended_visited by (by left).
      destruct (grid_get g r' c') as [source|]; simpl; [|done].
      by rewrite app_nil_r.
  - rewrite decide_False; [done|].
    intros Htarget%move_source_target. congruence.
Qed.

(** A visit moves the invariant to the next cell of the row. *)
Lemma visit_sweep_inv self g r0 c0 :
  sweep_inv LOG_SCALED self r0 c0 g -> r0 <= length (a self) -> c0 <= length (b self) ->
  exists g', visit LOG_SCALED self r0 g c0 = Some g'
             ∧ sweep_inv LOG_SCALED self r0 (c0 + 1) g'.
Proof.
  intros [Hshape Hpaths] Hr0 Hc0.
  destruct (shape_grid_get_is_Some _ _ _ _ _ Hshape Hr0 Hc0) as [v Hv].
  destruct (visit_grows LOG_SCALED self g r0 c0 v Hshape Hv) as (g' & Hvisit & Hshape' & Hgrows).
  exists g'. split; [done|]. split; [done|].
  intros r c cell' Hcell'. rewrite Hgrows in Hcell'.
  destruct (grid_get g r c) as [cell|] eqn:Hcell; simplify_eq/=.
  rewrite (Hpaths _ _ _ Hcell). unfold gathered.
  rewrite !(arrivals_step self g g' r0 c0 v _ r c Hshape Hv Hgrows).
  unfold appended. simpl.
  destruct (decide ((r, c) = (r0 + 1, c0))) as [[= -> ->]|Hdel].
  { rewrite (decide_False (P:=(r0 + 1, c0) = (r0 + 1, c0 + 1))) by (intros [=]; lia).
    rewrite (decide_False (P:=(r0 + 1, c0) = (r0, c0 + 1))) by (intros [=]; lia).
    rewrite (arrivals_unvisited self g _ Insert).
    - by rewrite !app_nil_r, <-!app_assoc.
    - intros r' c' Hsrc%move_source_target. apply bool_decide_eq_false.
      simpl in Hsrc. injection Hsrc as ? ?. lia. }
  destruct (decide ((r, c) = (r0 + 1, c0 + 1))) as [[= -> ->]|Hdiag].
  { rewrite (decide_False (P:=(r0 + 1, c0 + 1) = (r0, c0 + 1))) by (intros [=]; lia).
    rewrite (arrivals_unvisited self g _ Delete), (arrivals_unvisited self g _ Insert).
    - by rewrite !app_nil_r, <-!app_assoc.
    - intros r' c' Hsrc%move_source_target. apply bool_decide_eq_false.
      simpl in Hsrc. injection Hsrc as ? ?. lia.
    - intros r' c' Hsrc%move_source_target. apply bool_decide_eq_false.
      simpl in Hsrc. injection Hsrc as ? ?. lia. }
  destruct (decide ((r, c) = (r0, c0 + 1))) as [[= -> ->]|Hins].
  { by rewrite !app_nil_r, <-!app_assoc. }
  by rewrite !app_nil_r.
Qed.

(** A row of visits moves the invariant to the start of the next row. *)
Lemma visit_row_sweep_inv self g r0 :
  sweep_inv LOG_SCALED self r0 0 g -> r0 <= length (a self) ->
  exists g', visit_row LOG_SCALED self g r0 = Some g'
             ∧ sweep_inv LOG_SCALED self (r0 + 1) 0 g'.
Proof.
  intros Hinv Hr0. pose proof Hinv as [[Hlen Hrows] _]. unfold visit_row.
  destruct (lookup_lt_is_Some_2 g r0) as [row Hrow]; [lia|]. rewrite Hrow. simpl.
  destruct (Hrows _ _ Hrow) as [Hl _]. rewrite Hl.
  destruct (for_each_seq_inv (fun c0 => sweep_inv LOG_SCALED self r0 c0)
              (visit LOG_SCALED self r0) 0 (length (b self) + 1) g)
    as (g' & Hloop & [Hshape' Hpaths']); [|done|].
  { intros c0 g0 Hc0 Hg0. apply visit_sweep_inv; [done..|lia]. }
  exists g'. split; [done|]. split; [done|].
  intros r c cell Hcell. rewrite (Hpaths' _ _ _ Hcell). unfold gathered.
  assert (Hext : forall k,
             arrivals LOG_SCALED self g' (visited r0 (0 + (length (b self) + 1))) k r c
             = arrivals LOG_SCALED self g' (visited (r0 + 1) 0) k r c).
  { intros k. apply arrivals_ext. intros r' c' [src Hsrc].
    destruct (shape_grid_get _ _ _ _ _ _ Hshape' Hsrc) as (_ & ? & ?).
    apply bool_decide_ext. lia. }
  by rewrite !Hext.
Qed.

End Recurrence.

(** ** The grid at the end of the sweep *)

Section SweepResult.
Context {num : Type} {NUM : Numeric num}.
Context {elt : Type} `{Countable elt}.
Variable LOG_SCALED : bool.

Implicit Types (g : list (list (@ViterbiCell num elt))) (p : @ViterbiPath num elt).
Implicit Types (self : @ViterbiAligner num elt _ _) (a b : list elt).

Lemma gathered_all self g r0 r c :
  shape_ok (a self) (b self) g -> length (a self) < r0 ->
  gathered LOG_SCALED self g (visited r0 0) r c
  = gathered LOG_SCALED self g (fun _ _ => true) r c.
Proof.
  intros Hshape Hr0. unfold gathered.
  assert (Hext : forall k,
             arrivals LOG_SCALED self g (visited r0 0) k r c
             = arrivals LOG_SCALED self g (fun _ _ => true) k r c).
  { intros k. apply arrivals_ext. intros r' c' [src Hsrc].
    destruct (shape_grid_get _ _ _ _ _ _ Hshape Hsrc) as (_ & ? & ?).
    apply bool_decide_eq_true. lia. }
  by rewrite !Hext.
Qed.

(** The constructor with [run=True]: the sweep runs to its end, every path
    is a walk to its cell, and every cell holds the seed and then the
    extensions of the paths of its diagonal, deletion and insertion
    sources, in that order. *)
Lemma sweep_result (xs ys : list elt) scores costs :
  exists self g,
    ViterbiAligner_init LOG_SCALED xs ys scores costs true = Some self
    ∧ a self = xs ∧ b self = ys
    ∧ alignment_scores self = scores ∧ scores_are_costs self = costs
    ∧ grid self = Some g ∧ grid_inv xs ys g
    ∧ forall r c cell,
        grid_get g r c = Some cell ->
        paths cell = gathered LOG_SCALED self g (fun _ _ => true) r c.
Proof.
  unfold ViterbiAligner_init.
  set (self0 := {| a := xs; b := ys; alignment_scores := scores;
                   scores_are_costs := costs; grid := None |}).
  destruct (align_initialize_grid LOG_SCALED self0)
    as (self & g & Halign & Ha & Hb & Hscores & Hcosts & Hg & Hinv).
  exists self, g. split_and!; try done.
  intros r c cell Hcell.
  (* run the sweep again, now with the invariant on the path lists *)
  unfold align in Halign.
  destruct (grid (initialize_grid self0)) as [g0|] eqn:Hg0; [|done].
  pose proof (initialize_grid_shape _ _ Hg0) as Hshape0.
  simpl in Halign.
  destruct (grid_get g0 0 0) as [startcell|] eqn:Hstart; [|done]. simpl in Halign.
  destruct (shape_grid_get _ _ _ _ _ _ Hshape0 Hstart) as (Href & _ & _).
  set (g1 := paths_append g0 _ _) in Halign.
  assert (Hinv1 : sweep_inv LOG_SCALED (initialize_grid self0) 0 0 g1).
  { split; [by apply paths_append_shape|].
    intros r1 c1 cell1 Hcell1. unfold g1 in Hcell1.
    rewrite grid_get_paths_append, Href in Hcell1. simpl in Hcell1.
    unfold gathered.
    rewrite !arrivals_unvisited
      by (intros; apply bool_decide_eq_false; lia).
    rewrite !app_nil_r. unfold seed.
    destruct (grid_get g0 r1 c1) as [cell0|] eqn:Hcell0; [|by case_decide].
    pose proof (initialize_grid_paths _ _ _ _ _ Hg0 Hcell0) as Hnil.
    case_decide; simplify_eq/=; rewrite Hnil; [|done].
    done. }
  destruct (for_each_seq_inv (fun r0 => sweep_inv LOG_SCALED (initialize_grid self0) r0 0)
              (visit_row LOG_SCALED (initialize_grid self0)) 0 (length g1) g1)
    as (g2 & Hloop & [Hshape2 Hpaths2]); [|done|].
  { intros r0 g' Hr0 Hg'. apply visit_row_sweep_inv; [done|].
    destruct Hinv1 as [[Hlen _] _]. simpl in *. lia. }
  rewrite Hloop in Halign. simpl in Halign. injection Halign as <-.
  simpl in Hg. injection Hg as <-.
  rewrite (Hpaths2 _ _ _ Hcell).
  destruct Hinv1 as [[Hlen _] _].
  rewrite (gathered_all (initialize_grid self0) g2 (0 + length g1) r c Hshape2)
    by (simpl in *; lia).
  done.
Qed.

(** X1. At the end of the sweep the path list of every cell (r,c) is, in
    this order: the seeded path if (r,c) is the origin; the allowed diagonal
    extensions of the paths of (r-1,c-1); the allowed deletion extensions of
    the paths of (r-1,c); the allowed insertion extensions of the paths of
    (r,c-1), each group in the order of its source's list. *)
Theorem X1_cell_paths_gathered_from_sources a b scores costs :
  exists self g,
    ViterbiAligner_init LOG_SCALED a b scores costs true = Some self
    ∧ grid self = Some g
    ∧ forall r c cell,
        grid_get g r c = Some cell ->
        let from k :=
          match move_source k r c with
          | Some (r', c') =>
              match grid_get g r' c' with
              | Some source =>
                  omap (extend LOG_SCALED self (ref source) k (ref cell)) (paths source)
              | None => []
              end
          | None => []
          end in
        paths cell
        = (if decide (r = 0 ∧ c = 0)
           then [{| cells := [ref cell]; score := DEFAULT_GOOD_SCORE LOG_SCALED |}]
           else [])
          ++ from Diag ++ from Delete ++ from Insert.
Proof.
  destruct (sweep_result a b scores costs)
    as (self & g & Hinit & Ha & Hb & _ & _ & Hg & [Hshape _] & Hpaths).
  exists self, g. split_and!; [done..|].
  intros r c cell Hcell. simpl. rewrite (Hpaths _ _ _ Hcell).
  destruct (shape_grid_get _ _ _ _ _ _ Hshape Hcell) as (-> & _ & _).
  unfold gathered, arrivals, seed, startpath. rewrite Ha, Hb.
  case_decide as Hrc; [by destruct Hrc as [-> ->]|done].
Qed.

End SweepResult.

(** ** The stored paths are the legal paths, each once *)

Section Exact.
Context {num : Type} {NUM : Numeric num}.
Context {elt : Type} `{Countable elt}.
Variable LOG_SCALED : bool.

Implicit Types (g : list (list (@ViterbiCell num elt))) (p : @ViterbiPath num elt).
Implicit Types (self : @ViterbiAligner num elt _ _).

Lemma legal_bounds self r c p :
  legal LOG_SCALED self r c p -> r <= length (a self) ∧ c <= length (b self).
Proof. destruct 1 as [|k r c r' c' p p' _ _ Hr Hc _]; [lia|done]. Qed.

Lemma move_target_is_move k r c : is_move (r, c) (move_target k r c).
Proof. unfold is_move. destruct k; simpl; lia. Qed.

Lemma extend_cells self cell k next p p' :
  extend LOG_SCALED self cell k next p = Some p' -> cells p' = cells p ++ [next].
Proof.
  unfold extend. destruct (move_score _ _ _ _) as [s|]; simpl; [|done].
  by intros [= <-].
Qed.

Lemma legal_walk self r c p :
  legal LOG_SCALED self r c p -> walk (a self) (b self) r c (cells p).
Proof.
  induction 1 as [|k r c r' c' p p' _ IH Htarget Hr Hc Hext]; [apply walk_start|].
  rewrite (extend_cells _ _ _ _ _ _ Hext).
  apply walk_move with r c; [done| |done..]. rewrite <-Htarget. apply move_target_is_move.
Qed.

Lemma move_source_lt k r c r' c' : move_source k r c = Some (r', c') -> r' + c' < r + c.
Proof. intros Hsrc%move_source_target. destruct k; simpl in Hsrc; simplify_eq; lia. Qed.

(** A member of the arrivals is an extension of a path of the source. *)
Lemma elem_of_arrivals self g k r c p :
  shape_ok (a self) (b self) g ->
  p ∈ arrivals LOG_SCALED self g (fun _ _ => true) k r c <->
  exists r' c' source p0,
    move_source k r c = Some (r', c') ∧ grid_get g r' c' = Some source ∧ p0 ∈ paths source
    ∧ extend LOG_SCALED self (cell_ref (a self) (b self) r' c') k
        (cell_ref (a self) (b self) r c) p0 = Some p.
Proof.
  intros Hshape. unfold arrivals. split.
  - destruct (move_source k r c) as [[r' c']|]; [|by intros ?%not_elem_of_nil].
    destruct (grid_get g r' c') as [source|] eqn:Hsource; [|by intros ?%not_elem_of_nil].
    intros (p0 & Hp0 & Hext)%list_elem_of_omap.
    destruct (shape_grid_get _ _ _ _ _ _ Hshape Hsource) as (Href & _ & _).
    rewrite Href in Hext. by exists r', c', source, p0.
  - intros (r' & c' & source & p0 & -> & Hsource & Hp0 & Hext). rewrite Hsource.
    destruct (shape_grid_get _ _ _ _ _ _ Hshape Hsource) as (Href & _ & _).
    apply list_elem_of_omap. exists p0. by rewrite Href.
Qed.

Lemma elem_of_seed self r c p :
  p ∈ seed LOG_SCALED (a self) (b self) r c <->
  r = 0 ∧ c = 0 ∧ p = startpath LOG_SCALED (a self) (b self).
Proof.
  unfold seed. case_decide as Hrc.
  - rewrite list_elem_of_singleton. destruct Hrc as [-> ->].
    split; [by intros ->|by intros (_ & _ & ->)].
  - split; [by intros ?%not_elem_of_nil|]. intros (-> & -> & _). by destruct Hrc.
Qed.

Lemma stored_legal self g :
  swept LOG_SCALED self g ->
  forall r c cell p, grid_get g r c = Some cell -> p ∈ paths cell ->
                     legal LOG_SCALED self r c p.
Proof.
  intros [Hshape Hpaths].
  assert (Hind : forall n r c cell p,
             r + c < n -> grid_get g r c = Some cell -> p ∈ paths cell ->
             legal LOG_SCALED self r c p).
  { induction n as [|n IH]; intros r c cell p Hn Hcell Hp; [lia|].
    rewrite (Hpaths _ _ _ Hcell) in Hp. unfold gathered in Hp.
    destruct (shape_grid_get _ _ _ _ _ _ Hshape Hcell) as (_ & Hr & Hc).
    rewrite !elem_of_app, elem_of_seed, !(elem_of_arrivals _ _ _ _ _ _ Hshape) in Hp.
    destruct Hp as [(-> & -> & ->)|Hp]; [apply legal_start|].
    assert (Hstep : forall k,
               (exists r' c' source p0,
                   move_source k r c = Some (r', c') ∧ grid_get g r' c' = Some source
                   ∧ p0 ∈ paths source
                   ∧ extend LOG_SCALED self (cell_ref (a self) (b self) r' c') k
                       (cell_ref (a self) (b self) r c) p0 = Some p) ->
               legal LOG_SCALED self r c p).
    { intros k (r' & c' & source & p0 & Hsrc & Hsource & Hp0 & Hext).
      pose proof (move_source_lt _ _ _ _ _ Hsrc).
      apply legal_move with k r' c' p0; try done.
      - apply (IH r' c' source); [lia|done..].
      - symmetry. by apply move_source_target. }
    destruct Hp as [Hp|[Hp|Hp]]; by apply (Hstep _ Hp). }
  intros r c cell p. apply (Hind (S (r + c))). lia.
Qed.

Lemma legal_stored self g :
  swept LOG_SCALED self g ->
  forall r c cell p, legal LOG_SCALED self r c p -> grid_get g r c = Some cell ->
                     p ∈ paths cell.
Proof.
  intros [Hshape Hpaths] r c cell p Hlegal. revert cell.
  induction Hlegal as [|k r c r' c' p p' Hp IH Htarget Hr Hc Hext]; intros cell Hcell;
    rewrite (Hpaths _ _ _ Hcell); unfold gathered;
    rewrite !elem_of_app, elem_of_seed, !(elem_of_arrivals _ _ _ _ _ _ Hshape).
  - by left.
  - destruct (legal_bounds _ _ _ _ Hp) as [Hr0 Hc0].
    destruct (shape_grid_get_is_Some _ _ _ _ _ Hshape Hr0 Hc0) as [source Hsource].
    assert (move_source k r' c' = Some (r, c)) as Hsrc by by apply move_source_target.
    right. destruct k; [right; left|left|right; right];
      exists r, c, source, p; split_and!; try done; by apply IH.
Qed.

Lemma penult_snoc (l : list (@CellRef elt)) x y :
  penult ((l ++ [x]) ++ [y]) = Some (Cell_get_coordinates x).
Proof. unfold penult. by rewrite !reverse_snoc. Qed.

(** Extending the paths of a list keeps their cell sequences distinct. *)
Lemma NoDup_extensions self cell k next (ps : list (@ViterbiPath num elt)) :
  NoDup (cells <$> ps) -> NoDup (cells <$> omap (extend LOG_SCALED self cell k next) ps).
Proof.
  induction ps as [|p ps IH]; [done|]. rewrite fmap_cons, NoDup_cons.
  intros [Hp Hps]. simpl.
  destruct (extend LOG_SCALED self cell k next p) as [p'|] eqn:Hext; [|by apply IH].
  rewrite fmap_cons. apply NoDup_cons. split; [|by apply IH].
  intros (q' & Hcells & (q & Hq & Hextq)%list_elem_of_omap)%list_elem_of_fmap.
  rewrite (extend_cells _ _ _ _ _ _ Hext), (extend_cells _ _ _ _ _ _ Hextq) in Hcells.
  apply app_inj_tail in Hcells as [Hcells _].
  apply Hp. rewrite Hcells. by apply list_elem_of_fmap_2.
Qed.

Lemma stored_NoDup self g :
  swept LOG_SCALED self g ->
  forall r c cell, grid_get g r c = Some cell -> NoDup (cells <$> paths cell).
Proof.
  intros Hswept. pose proof Hswept as [Hshape Hpaths].
  assert (Hpen : forall k r c l,
             l ∈ cells <$> arrivals LOG_SCALED self g (fun _ _ => true) k r c ->
             is_Some (move_source k r c) ∧ penult l = move_source k r c).
  { intros k r c l (p & -> & Hp)%list_elem_of_fmap.
    apply (elem_of_arrivals _ _ _ _ _ _ Hshape) in Hp
      as (r' & c' & source & p0 & Hsrc & Hsource & Hp0 & Hext).
    rewrite Hsrc. split; [by eauto|].
    rewrite (extend_cells _ _ _ _ _ _ Hext).
    pose proof (legal_walk _ _ _ _ (stored_legal _ _ Hswept _ _ _ _ Hsource Hp0)) as Hwalk.
    destruct (walk_last _ _ _ _ _ Hwalk) as (l0 & -> & _). by rewrite penult_snoc. }
  assert (Hdisj : forall k k' r c l,
             k <> k' ->
             l ∈ cells <$> arrivals LOG_SCALED self g (fun _ _ => true) k r c ->
             l ∉ cells <$> arrivals LOG_SCALED self g (fun _ _ => true) k' r c).
  { intros k k' r c l Hne [[[r' c'] Hsrc] Hl]%Hpen [_ Hl']%Hpen.
    rewrite Hl, Hsrc in Hl'. symmetry in Hl'.
    apply move_source_target in Hsrc, Hl'. rewrite Hsrc in Hl'.
    by apply move_target_inj in Hl'. }
  assert (Hind : forall n r c cell,
             r + c < n -> grid_get g r c = Some cell -> NoDup (cells <$> paths cell)).
  { induction n as [|n IH]; intros r c cell Hn Hcell; [lia|].
    assert (Hgroup : forall k,
               NoDup (cells <$> arrivals LOG_SCALED self g (fun _ _ => true) k r c)).
    { intros k. unfold arrivals.
      destruct (move_source k r c) as [[r' c']|] eqn:Hsrc; [|constructor].
      destruct (grid_get g r' c') as [source|] eqn:Hsource; [|constructor].
      apply NoDup_extensions, (IH r' c'); [|done].
      pose proof (move_source_lt _ _ _ _ _ Hsrc). lia. }
    rewrite (Hpaths _ _ _ Hcell). unfold gathered. rewrite !fmap_app.
    apply NoDup_app. split_and!.
    - unfold seed. case_decide; [apply NoDup_singleton|constructor].
    - intros l (p & -> & (-> & -> & ->)%elem_of_seed)%list_elem_of_fmap.
      rewrite <-!fmap_app. intros (q & Hq & Hin)%list_elem_of_fmap.
      rewrite !elem_of_app in Hin.
      destruct Hin as [Hk|[Hk|Hk]];
        by apply (elem_of_arrivals _ _ _ _ _ _ Hshape) in Hk as (? & ? & ? & ? & Hsrc & _).
    - apply NoDup_app. split_and!; [apply Hgroup| |].
      + intros l Hl. rewrite elem_of_app. intros [Hl'|Hl'].
        * by apply (Hdisj Diag Delete r c l).
        * by apply (Hdisj Diag Insert r c l).
      + apply NoDup_app. split_and!; [apply Hgroup| |apply Hgroup].
        intros l Hl. by apply (Hdisj Delete Insert r c l). }
  intros r c cell. apply (Hind (S (r + c))). lia.
Qed.

(** A walk is determined by its coordinates. *)
Lemma walk_coordinates_inj (xs ys : list elt) r c r1 c1 (l l1 : list (@CellRef elt)) :
  walk xs ys r c l -> walk xs ys r1 c1 l1 ->
  map Cell_get_coordinates l = map Cell_get_coordinates l1 -> l = l1.
Proof.
  intros Hl. revert r1 c1 l1.
  induction Hl as [|r c r' c' l Hl IH Hmove Hr Hc]; intros r1 c1 l1 Hl1 Hcoords.
  - destruct Hl1 as [|r1 c1 r1' c1' l1 Hl1 Hmove1 Hr1 Hc1]; [done|].
    destruct (walk_last _ _ _ _ _ Hl1) as (l0 & -> & _).
    apply (f_equal length) in Hcoords.
    rewrite !length_map, !length_app in Hcoords. simpl in Hcoords. lia.
  - destruct Hl1 as [|r1 c1 r1' c1' l1 Hl1 Hmove1 Hr1 Hc1].
    + destruct (walk_last _ _ _ _ _ Hl) as (l0 & -> & _).
      apply (f_equal length) in Hcoords.
      rewrite !length_map, !length_app in Hcoords. simpl in Hcoords. lia.
    + rewrite !map_app in Hcoords. simpl in Hcoords.
      apply app_inj_tail in Hcoords as [Hcoords [= -> ->]].
      f_equal. by apply (IH r1 c1).
Qed.

(** X2. At the end of the sweep the paths stored in the cell (r,c) are
    exactly the legal paths to (r,c): the seeded path and what allowed moves
    make of a legal path, as long as they stay in the grid.  No two stored
    paths of a cell have the same coordinates: each alignment is stored
    once. *)
Theorem X2_stored_paths_are_the_legal_paths (xs ys : list elt) scores costs :
  exists self g,
    ViterbiAligner_init LOG_SCALED xs ys scores costs true = Some self
    ∧ grid self = Some g
    ∧ forall r c cell,
        grid_get g r c = Some cell ->
        (forall p, p ∈ paths cell <-> legal LOG_SCALED self r c p)
        ∧ NoDup (Path_get_coordinates <$> paths cell).
Proof.
  destruct (sweep_result LOG_SCALED xs ys scores costs)
    as (self & g & Hinit & Ha & Hb & _ & _ & Hg & [Hshape Hwalks] & Hpaths).
  assert (Hswept : swept LOG_SCALED self g).
  { split; [by rewrite Ha, Hb|done]. }
  exists self, g. split_and!; [done..|].
  intros r c cell Hcell. split.
  - intros p. split.
    + by apply (stored_legal self g Hswept r c cell).
    + intros Hp. by apply (legal_stored self g Hswept r c cell).
  - pose proof (stored_NoDup self g Hswept r c cell Hcell) as Hnd.
    change (NoDup ((map Cell_get_coordinates ∘ cells) <$> paths cell)).
    rewrite list_fmap_compose.
    apply NoDup_fmap_2_strong; [|done].
    intros l l1 (p & -> & Hp)%list_elem_of_fmap (q & -> & Hq)%list_elem_of_fmap.
    apply (walk_coordinates_inj xs ys r c r c); by eapply Hwalks.
Qed.

End Exact.

(** ** Scores, counts and reachability *)

Section Scores.
Context {num : Type} {NUM : Numeric num}.
Context {elt : Type} `{Countable elt}.
Variable LOG_SCALED : bool.

Implicit Types (g : list (list (@ViterbiCell num elt))) (p : @ViterbiPath num elt).
Implicit Types (self : @ViterbiAligner num elt _ _).

Lemma alignment_score_app self acc l1 l2 :
  alignment_score LOG_SCALED self acc (l1 ++ l2)
  = alignment_score LOG_SCALED self acc l1
    ≫= fun acc' => alignment_score LOG_SCALED self acc' l2.
Proof.
  revert acc. induction l1 as [|e l1 IH]; intros acc; simpl; [done|].
  destruct (entry_score LOG_SCALED self e) as [s|]; simpl; [apply IH|done].
Qed.

(** The alignment entry of a move is the key pair of the move, and under the
    default scores its shape tells the move. *)
Lemma entry_score_transition self k r c r' c' :
  move_target k r c = (r', c') -> r' <= length (a self) -> c' <= length (b self) ->
  entry_score LOG_SCALED self
    (transition (cell_ref (a self) (b self) r c) (cell_ref (a self) (b self) r' c'))
  = move_score LOG_SCALED self (cell_ref (a self) (b self) r c) k.
Proof.
  intros Htarget Hr Hc. unfold entry_score, move_score, transition. simpl.
  unfold get_a_element, get_b_element. simpl.
  destruct k; simpl in Htarget; injection Htarget as <- <-; simpl;
    repeat case_bool_decide; try lia.
  - destruct (lookup_lt_is_Some_2 (a self) r) as [x Hx]; [lia|]. by rewrite Hx.
  - destruct (lookup_lt_is_Some_2 (a self) r) as [x Hx]; [lia|].
    destruct (lookup_lt_is_Some_2 (b self) c) as [y Hy]; [lia|]. by rewrite Hx, Hy.
  - done.
Qed.

Lemma legal_score self r c p :
  legal LOG_SCALED self r c p ->
  alignment_score LOG_SCALED self (DEFAULT_GOOD_SCORE LOG_SCALED) (transitions (cells p))
  = Some (score p).
Proof.
  induction 1 as [|k r c r' c' p p' Hp IH Htarget Hr Hc Hext]; [done|].
  rewrite (extend_cells _ _ _ _ _ _ _ Hext).
  destruct (walk_last _ _ _ _ _ (legal_walk _ _ _ _ _ Hp)) as (l0 & Hl0 & _).
  rewrite Hl0 in IH |- *.
  rewrite transitions_snoc, alignment_score_app, IH. simpl.
  rewrite (entry_score_transition self k r c r' c' Htarget Hr Hc).
  unfold extend in Hext.
  destruct (move_score LOG_SCALED self _ k) as [s|]; simpl in *; [|done].
  by injection Hext as <-.
Qed.

(** X3. The score of every stored path is the score of its alignment,
    recomputed entry by entry from [DEFAULT_GOOD_SCORE] with the score
    combination: under the default scores, [DEFAULT_GOOD_SCORE] for a pair
    of two elements and [DEFAULT_BAD_SCORE] for a pair with a None; under a
    table, the table entry of the pair, which is present for every pair of
    the alignment. *)
Theorem X3_score_is_recomputed_from_alignment (xs ys : list elt) scores costs :
  exists self g,
    ViterbiAligner_init LOG_SCALED xs ys scores costs true = Some self
    ∧ grid self = Some g
    ∧ forall r c cell p,
        grid_get g r c = Some cell -> p ∈ paths cell ->
        exists alignment,
          Path_get_elements p = Some alignment
          ∧ alignment_score LOG_SCALED self (DEFAULT_GOOD_SCORE LOG_SCALED) alignment
            = Some (score p)
          ∧ forall table, alignment_scores self = Some table ->
              Forall (fun e => is_Some (table !! e.1 ≫= (.!! e.2))) alignment.
Proof.
  destruct (sweep_result LOG_SCALED xs ys scores costs)
    as (self & g & Hinit & Ha & Hb & _ & _ & Hg & [Hshape Hwalks] & Hpaths).
  assert (Hswept : swept LOG_SCALED self g).
  { split; [by rewrite Ha, Hb|done]. }
  exists self, g. split_and!; [done..|].
  intros r c cell p Hcell Hp. exists (transitions (cells p)).
  pose proof (legal_score _ _ _ _ (stored_legal _ _ _ Hswept _ _ _ _ Hcell Hp)) as Hscore.
  split_and!; [apply Path_get_elements_transitions|done|].
  intros table Htable. revert Hscore.
  generalize (DEFAULT_GOOD_SCORE LOG_SCALED) (score p).
  induction (transitions (cells p)) as [|e l IH]; intros acc res Hscore; [done|].
  simpl in Hscore. unfold entry_score in Hscore. rewrite Htable in Hscore.
  change (table !! e.1 ≫= (fun inner : gmap (option elt) num => inner !! e.2))
    with (table !! e.1 ≫= (.!! e.2)) in Hscore.
  destruct (table !! e.1 ≫= (.!! e.2)) as [s|] eqn:He; simpl in Hscore; [|done].
  constructor; [by eauto|]. by eapply IH.
Qed.

Lemma extensions_length self cell k next (ps : list (@ViterbiPath num elt)) :
  alignment_scores self = None ->
  length (omap (extend LOG_SCALED self cell k next) ps) = length ps.
Proof.
  intros Hnone. induction ps as [|p ps IH]; [done|]. simpl.
  destruct (extend LOG_SCALED self cell k next p) as [p'|] eqn:Hext;
    [simpl; f_equal; exact IH|].
  unfold extend, move_score in Hext. by rewrite Hnone in Hext.
Qed.

Lemma delannoy_succ r c :
  delannoy (S r) (S c) = delannoy r c + delannoy r (S c) + delannoy (S r) c.
Proof. reflexivity. Qed.

Lemma stored_count self g :
  swept LOG_SCALED self g -> alignment_scores self = None ->
  forall r c cell, grid_get g r c = Some cell -> length (paths cell) = delannoy r c.
Proof.
  intros [Hshape Hpaths] Hnone.
  assert (Hind : forall n r c cell,
             r + c < n -> grid_get g r c = Some cell -> length (paths cell) = delannoy r c).
  { induction n as [|n IH]; intros r c cell Hn Hcell; [lia|].
    destruct (shape_grid_get _ _ _ _ _ _ Hshape Hcell) as (_ & Hr & Hc).
    assert (Hsrc : forall k r' c',
               move_source k r c = Some (r', c') ->
               length (arrivals LOG_SCALED self g (fun _ _ => true) k r c)
               = delannoy r' c').
    { intros k r' c' Hsrc. unfold arrivals. rewrite Hsrc.
      pose proof (move_source_lt _ _ _ _ _ Hsrc) as Hlt.
      apply move_source_target in Hsrc.
      destruct (shape_grid_get_is_Some _ _ _ r' c' Hshape) as [source Hsource].
      { destruct k; simpl in Hsrc; simplify_eq; lia. }
      { destruct k; simpl in Hsrc; simplify_eq; lia. }
      rewrite Hsource, extensions_length by done. apply (IH r' c'); [lia|done]. }
    rewrite (Hpaths _ _ _ Hcell). unfold gathered. rewrite !length_app.
    destruct r as [|r], c as [|c].
    - done.
    - rewrite (Hsrc Insert 0 c) by done. by destruct c.
    - rewrite (Hsrc Delete r 0) by done. by destruct r.
    - rewrite (Hsrc Diag r c), (Hsrc Delete r (S c)), (Hsrc Insert (S r) c) by done.
      rewrite delannoy_succ. unfold seed. rewrite decide_False by lia. simpl. lia. }
  intros r c cell. apply (Hind (S (r + c))). lia.
Qed.

Lemma delannoy_bound r c : 3 ^ (r `min` c) <= delannoy r c.
Proof.
  revert c. induction r as [|r IHr]; intros c; [simpl; lia|].
  induction c as [|c IHc]; [simpl; lia|].
  rewrite delannoy_succ, <-Nat.succ_min_distr, Nat.pow_succ_r'.
  pose proof (IHr c). pose proof (IHr (S c)).
  pose proof (Nat.pow_le_mono_r 3 (r `min` c) (r `min` S c)).
  pose proof (Nat.pow_le_mono_r 3 (r `min` c) (S r `min` c)).
  lia.
Qed.

(** X4. Under the default scores no extension is dropped: the cell (r,c)
    ends the sweep with [delannoy r c] paths, the number of walks from the
    origin by the three moves.  [get_all_paths] returns
    [delannoy (len a) (len b)] paths, at least [3 ^ min (len a) (len b)]. *)
Theorem X4_default_scores_path_count (xs ys : list elt) costs :
  exists self g all_paths,
    ViterbiAligner_init LOG_SCALED xs ys None costs true = Some self
    ∧ grid self = Some g
    ∧ (forall r c cell, grid_get g r c = Some cell -> length (paths cell) = delannoy r c)
    ∧ get_all_paths self = Some all_paths
    ∧ length all_paths = delannoy (length xs) (length ys)
    ∧ 3 ^ (length xs `min` length ys) <= length all_paths.
Proof.
  destruct (sweep_result LOG_SCALED xs ys None costs)
    as (self & g & Hinit & Ha & Hb & Hscores & _ & Hg & [Hshape Hwalks] & Hpaths).
  assert (Hswept : swept LOG_SCALED self g).
  { split; [by rewrite Ha, Hb|done]. }
  destruct (last_cell_shape _ _ _ Hshape) as (cell & Hlast & Hcell).
  pose proof (stored_count self g Hswept Hscores) as Hcount.
  exists self, g, (paths cell). split_and!; try done.
  - unfold get_all_paths. rewrite Hg. simpl. by rewrite Hlast.
  - by apply Hcount.
  - rewrite (Hcount _ _ _ Hcell). apply delannoy_bound.
Qed.

(** Without indel keys only diagonal moves are legal. *)
Lemma legal_diagonal self table r c p :
  alignment_scores self = Some table ->
  table !! None = None ->
  (forall x inner, table !! x = Some inner -> inner !! None = None) ->
  legal LOG_SCALED self r c p -> r = c.
Proof.
  intros Htable Hnone Hinner.
  induction 1 as [|k r c r' c' p p' Hp IH Htarget Hr Hc Hext]; [done|].
  unfold extend, move_score in Hext. rewrite Htable in Hext.
  destruct k; simpl in *; simplify_eq.
  - match type of Hext with
    | context [table !! ?x] => destruct (table !! x) as [inner|] eqn:Hin
    end; simpl in Hext; [|done].
    by rewrite (Hinner _ _ Hin) in Hext.
  - done.
  - by rewrite Hnone in Hext.
Qed.

(** X5. Under a table without a None key on either side (no insertion and
    no deletion is allowed) every cell off the diagonal ends the sweep
    without paths; for sequences of different lengths [get_all_paths]
    returns the empty list. *)
Theorem X5_no_indel_keys_no_off_diagonal_paths (xs ys : list elt)
    (table : gmap (option elt) (gmap (option elt) num)) costs :
  table !! None = None ->
  (forall x inner, table !! x = Some inner -> inner !! None = None) ->
  exists self g,
    ViterbiAligner_init LOG_SCALED xs ys (Some table) costs true = Some self
    ∧ grid self = Some g
    ∧ (forall r c cell, grid_get g r c = Some cell -> r <> c -> paths cell = [])
    ∧ (length xs <> length ys -> get_all_paths self = Some []).
Proof.
  intros Hnone Hinner.
  destruct (sweep_result LOG_SCALED xs ys (Some table) costs)
    as (self & g & Hinit & Ha & Hb & Hscores & _ & Hg & [Hshape Hwalks] & Hpaths).
  assert (Hswept : swept LOG_SCALED self g).
  { split; [by rewrite Ha, Hb|done]. }
  assert (Hoff : forall r c cell, grid_get g r c = Some cell -> r <> c -> paths cell = []).
  { intros r c cell Hcell Hrc. apply elem_of_nil_inv. intros p Hp.
    apply Hrc, (legal_diagonal self table r c p Hscores Hnone Hinner).
    by apply (stored_legal _ _ _ Hswept r c cell). }
  exists self, g. split_and!; try done.
  intros Hlen. destruct (last_cell_shape _ _ _ Hshape) as (cell & Hlast & Hcell).
  unfold get_all_paths. rewrite Hg. simpl. rewrite Hlast. simpl.
  f_equal. by apply (Hoff _ _ _ Hcell).
Qed.

End Scores.

(** ** Views of paths and of the grid *)

Section Views.
Context {num : Type} {NUM : Numeric num}.
Context {elt : Type} `{Countable elt}.
Variable LOG_SCALED : bool.

Implicit Types (g : list (list (@ViterbiCell num elt))) (p : @ViterbiPath num elt).
Implicit Types (self : @ViterbiAligner num elt _ _).

Lemma walk_length (xs ys : list elt) r c (l : list (@CellRef elt)) :
  walk xs ys r c l -> r `max` c + 1 <= length l ∧ length l <= r + c + 1.
Proof.
  induction 1 as [|r c r' c' l Hl IH Hmove Hr Hc]; [simpl; lia|].
  rewrite length_app. simpl.
  destruct Hmove as [[? ?]|[[? ?]|[? ?]]]; simpl in *; lia.
Qed.

Lemma walk_cells (xs ys : list elt) r c (l : list (@CellRef elt)) :
  walk xs ys r c l ->
  Forall (fun x => x = cell_ref xs ys (row_idx x) (col_idx x)) l.
Proof.
  induction 1 as [|r c r' c' l Hl IH Hmove Hr Hc]; [by repeat constructor|].
  apply Forall_app. split; [done|]. by repeat constructor.
Qed.

(** X6. Every path stored in the cell (r,c) ends at (r,c), and its
    alignment has at least [max r c] and at most [r + c] entries. *)
Theorem X6_stored_path_ends_at_its_cell (xs ys : list elt) scores costs :
  exists self g,
    ViterbiAligner_init LOG_SCALED xs ys scores costs true = Some self
    ∧ grid self = Some g
    ∧ forall r c cell p,
        grid_get g r c = Some cell -> p ∈ paths cell ->
        last (Path_get_coordinates p) = Some (r, c)
        ∧ exists alignment,
            Path_get_elements p = Some alignment
            ∧ r `max` c <= length alignment ∧ length alignment <= r + c.
Proof.
  destruct (sweep_result LOG_SCALED xs ys scores costs)
    as (self & g & Hinit & _ & _ & _ & _ & Hg & [Hshape Hwalks] & _).
  exists self, g. split_and!; [done..|].
  intros r c cell p Hcell Hp. pose proof (Hwalks _ _ _ _ Hcell Hp) as Hwalk. split.
  - destruct (walk_last _ _ _ _ _ Hwalk) as (l & Hl & _).
    unfold Path_get_coordinates, _get_cell_properties_coordinates.
    rewrite Hl, map_app. simpl. apply last_snoc.
  - exists (transitions (cells p)). split; [apply Path_get_elements_transitions|].
    rewrite transitions_length. pose proof (walk_length _ _ _ _ _ Hwalk). lia.
Qed.

(** X7. The elements view of a stored path lists, coordinate by
    coordinate, the element of [a] at the row and the element of [b] at the
    column, None past the end of the sequence. *)
Theorem X7_path_elements_follow_coordinates (xs ys : list elt) scores costs :
  exists self g,
    ViterbiAligner_init LOG_SCALED xs ys scores costs true = Some self
    ∧ grid self = Some g
    ∧ forall r c cell p,
        grid_get g r c = Some cell -> p ∈ paths cell ->
        _get_cell_properties_elements p
        = map (fun rc : nat * nat => (xs !! rc.1, ys !! rc.2)) (Path_get_coordinates p).
Proof.
  destruct (sweep_result LOG_SCALED xs ys scores costs)
    as (self & g & Hinit & _ & _ & _ & _ & Hg & [Hshape Hwalks] & _).
  exists self, g. split_and!; [done..|].
  intros r c cell p Hcell Hp.
  pose proof (walk_cells _ _ _ _ _ (Hwalks _ _ _ _ Hcell Hp)) as Hcells.
  unfold _get_cell_properties_elements, Path_get_coordinates,
    _get_cell_properties_coordinates.
  induction Hcells as [|x l Hx Hl IH]; [done|]. simpl. f_equal; [|done].
  by rewrite Hx.
Qed.

(** X8. [get_name] of a cell is what its paths have left to consume: for
    every path stored in a cell, the non-None A components of its alignment
    followed by the first component of the cell's name are the whole of
    [a], and likewise for [b]. *)
Theorem X8_consumed_and_name_make_the_input (xs ys : list elt) scores costs :
  exists self g,
    ViterbiAligner_init LOG_SCALED xs ys scores costs true = Some self
    ∧ grid self = Some g
    ∧ forall r c cell p,
        grid_get g r c = Some cell -> p ∈ paths cell ->
        exists alignment,
          Path_get_elements p = Some alignment
          ∧ omap fst alignment ++ (Cell_get_name self (ref cell)).1 = xs
          ∧ omap snd alignment ++ (Cell_get_name self (ref cell)).2 = ys.
Proof.
  destruct (sweep_result LOG_SCALED xs ys scores costs)
    as (self & g & Hinit & Ha & Hb & _ & _ & Hg & [Hshape Hwalks] & _).
  exists self, g. split_and!; [done..|].
  intros r c cell p Hcell Hp. exists (transitions (cells p)).
  split; [apply Path_get_elements_transitions|].
  destruct (walk_transitions _ _ _ _ _ (Hwalks _ _ _ _ Hcell Hp)) as [-> ->].
  destruct (shape_grid_get _ _ _ _ _ _ Hshape Hcell) as (-> & _ & _).
  unfold Cell_get_name. simpl. by rewrite Ha, Hb, !take_drop.
Qed.

(** X9. [print_grid] raises nothing on a swept aligner and prints
    [len(a)+1] rows of [len(b)+1] values, the last grid row first: line [k]
    holds at column [c] the value of the cell [(len(a) - k, c)], which is
    its number of paths for ['npaths'], the remaining suffixes of [a] and
    [b] for ['names'], and its coordinates for any other [what]. *)
Theorem X9_print_grid_prints_rows_bottom_up (xs ys : list elt) scores costs what :
  exists self g rows,
    ViterbiAligner_init LOG_SCALED xs ys scores costs true = Some self
    ∧ grid self = Some g
    ∧ print_grid self what = Some rows
    ∧ length rows = length xs + 1
    ∧ forall k c, k <= length xs -> c <= length ys ->
        exists cell,
          grid_get g (length xs - k) c = Some cell
          ∧ rows !! k ≫= (.!! c)
            = Some (if decide (what = "npaths"%string) then NPaths (length (paths cell))
                    else if decide (what = "names"%string)
                    then Names (drop (length xs - k) xs, drop c ys)
                    else Coordinates (length xs - k, c)).
Proof.
  destruct (sweep_result LOG_SCALED xs ys scores costs)
    as (self & g & Hinit & Ha & Hb & _ & _ & Hg & [Hshape Hwalks] & _).
  pose proof Hshape as [Hlen Hrows].
  eexists self, g, _. split_and!; try done.
  - unfold print_grid. rewrite Hg. simpl. done.
  - by rewrite length_reverse, length_map.
  - intros k c Hk Hc.
    destruct (shape_grid_get_is_Some _ _ _ (length xs - k) c Hshape) as [cell Hcell];
      [lia..|].
    destruct (shape_grid_get _ _ _ _ _ _ Hshape Hcell) as (Href & _ & _).
    exists cell. split; [done|].
    rewrite reverse_lookup by (rewrite length_map; lia).
    rewrite length_map, Hlen.
    replace (length xs + 1 - S k) with (length xs - k) by lia.
    unfold grid_get in Hcell. rewrite list_lookup_fmap.
    destruct (g !! (length xs - k)) as [row|]; [|done]. simpl in Hcell |- *.
    rewrite list_lookup_fmap, Hcell. simpl.
    unfold Cell_get_name, Cell_get_all_paths. by rewrite Href, Ha, Hb.
Qed.

End Views.

(** ** The queries and the life cycle of an aligner *)

Section LifeCycle.
Context {num : Type} {NUM : Numeric num}.
Context {elt : Type} `{Countable elt}.
Variable LOG_SCALED : bool.

Implicit Types (g : list (list (@ViterbiCell num elt))) (p : @ViterbiPath num elt).
Implicit Types (self : @ViterbiAligner num elt _ _).

Lemma list_alter_same {A} (f : A -> A) (l : list A) i x :
  l !! i = Some x -> f x = x -> alter f i l = l.
Proof.
  intros Hx Hf. apply list_eq. intros j. rewrite list_lookup_alter.
  case_decide; [|done]. subst. by rewrite Hx; simpl; rewrite Hf.
Qed.

Lemma grid_alter_same g r c cell :
  grid_get g r c = Some cell -> alter (alter (fun _ => cell) c) r g = g.
Proof.
  unfold grid_get. intros Hcell.
  destruct (g !! r) as [row|] eqn:Hrow; simplify_eq/=.
  apply (list_alter_same _ _ _ row); [done|].
  by apply (list_alter_same _ _ _ cell).
Qed.

(** X11. An aligner built with [run=False] has no grid: [align], both
    queries and [print_grid] raise.  Once [initialize_grid] has run and
    before [align], both queries return the empty list and leave the aligner
    as it is. *)
Theorem X11_queries_before_the_sweep (xs ys : list elt) scores costs what :
  exists self,
    ViterbiAligner_init LOG_SCALED xs ys scores costs false = Some self
    ∧ align LOG_SCALED self = None
    ∧ get_all_paths self = None
    ∧ get_best_paths self = None
    ∧ print_grid self what = None
    ∧ get_all_paths (initialize_grid self) = Some []
    ∧ get_best_paths (initialize_grid self) = Some ([], initialize_grid self).
Proof.
  eexists. split; [done|]. split_and!; try done.
  - set (self := {| a := xs; b := ys; alignment_scores := scores;
                    scores_are_costs := costs; grid := None |}).
    destruct (grid (initialize_grid self)) as [g|] eqn:Hg; [|done].
    pose proof (initialize_grid_shape _ _ Hg) as Hshape.
    destruct (last_cell_shape _ _ _ Hshape) as (cell & Hlast & Hcell).
    unfold get_all_paths. rewrite Hg. simpl. rewrite Hlast. simpl.
    unfold Cell_get_all_paths. by rewrite (initialize_grid_paths _ _ _ _ _ Hg Hcell).
  - set (self := {| a := xs; b := ys; alignment_scores := scores;
                    scores_are_costs := costs; grid := None |}).
    destruct (grid (initialize_grid self)) as [g|] eqn:Hg; [|done].
    pose proof (initialize_grid_shape _ _ Hg) as Hshape.
    destruct (last_cell_shape _ _ _ Hshape) as (cell & Hlast & Hcell).
    pose proof (initialize_grid_paths _ _ _ _ _ Hg Hcell) as Hnil.
    unfold get_best_paths. rewrite Hg. cbn [mbind option_bind]. rewrite Hlast.
    cbn [mbind option_bind]. unfold Cell_get_best_paths. rewrite Hnil.
    cbn [length bool_decide decide_rel mbind option_bind].
    rewrite bool_decide_true by done. cbn [mbind option_bind].
    rewrite (grid_alter_same _ _ _ _ Hcell). do 2 f_equal.
    unfold initialize_grid in *. simpl in *. by injection Hg as <-.
Qed.

(** X12. [initialize_grid] drops every path of the grid it replaces:
    running [initialize_grid] and [align] again on a swept aligner gives
    that same aligner. *)
Theorem X12_reinitialise_and_align_again (xs ys : list elt) scores costs :
  exists self,
    ViterbiAligner_init LOG_SCALED xs ys scores costs true = Some self
    ∧ align LOG_SCALED (initialize_grid self) = Some self.
Proof.
  destruct (sweep_result LOG_SCALED xs ys scores costs)
    as (self & g & Hinit & Ha & Hb & Hscores & Hcosts & Hg & _).
  exists self. split; [done|]. rewrite <-Hinit.
  unfold ViterbiAligner_init, initialize_grid, set_grid. simpl.
  by rewrite Ha, Hb, Hscores, Hcosts.
Qed.

End LifeCycle.

Section SortedAfterBest.
Context {num : Type} {NUM : Numeric num} {ORD : NumericOrder num}.
Context {elt : Type} `{Countable elt}.
Variable LOG_SCALED : bool.

Implicit Types (p q : @ViterbiPath num elt).

Lemma filter_all (P : @ViterbiPath num elt -> Prop) `{!forall x, Decision (P x)}
    (l : list (@ViterbiPath num elt)) :
  Forall P l -> filter P l = l.
Proof.
  induction 1 as [|x l Hx Hl IH]; [done|]. by rewrite filter_cons_True, IH.
Qed.

Lemma best_prefix_take (sorted : list (@ViterbiPath num elt)) :
  exists k, best_prefix sorted = take k sorted ∧ (sorted <> [] -> 0 < k).
Proof.
  destruct sorted as [|p0 rest]; [by exists 0|].
  eexists. split; [done|]. intros _.
  rewrite (best_scan_spec _ (p0 :: rest) _ 1) by (simpl; lia). lia.
Qed.

(** X10. After [get_best_paths] the list [get_all_paths] returns is the
    old one sorted best first: it starts with the paths [get_best_paths]
    returned, every later path is strictly worse than those, and no path is
    better than a path before it.  Unless the terminal cell is empty,
    [get_best_paths] returns at least one path. *)
Theorem X10_best_paths_lead_the_sorted_list (xs ys : list elt) scores costs :
  exists self all_paths best self' rest,
    ViterbiAligner_init LOG_SCALED xs ys scores costs true = Some self
    ∧ get_all_paths self = Some all_paths
    ∧ get_best_paths self = Some (best, self')
    ∧ get_all_paths self' = Some (best ++ rest)
    ∧ best ++ rest ≡ₚ all_paths
    ∧ StronglySorted (fun u v => better_eq costs (score u) (score v)) (best ++ rest)
    ∧ (forall p q, p ∈ best -> q ∈ rest -> ~ better_eq costs (score q) (score p))
    ∧ (all_paths <> [] -> best <> []).
Proof.
  destruct (sweep_result LOG_SCALED xs ys scores costs)
    as (self & g & Hinit & Ha & Hb & _ & Hcosts & Hg & [Hshape _] & _).
  destruct (shape_grid_get_is_Some _ _ _ (length xs) (length ys) Hshape)
    as [cell Hcell]; [lia..|].
  destruct (get_best_paths_sorts self xs ys g cell) as [Hall Hbest]; [done..|].
  rewrite Hcosts in Hbest.
  set (l := paths cell) in *.
  set (sorted := list_sort cmp_score (negb costs) l).
  set (g' := alter (alter (sorted_cell costs) (length ys)) (length xs) g) in *.
  assert (Hshape' : shape_ok xs ys g') by by apply alter_cell_shape.
  assert (Hcell' : grid_get g' (length xs) (length ys) = Some (sorted_cell costs cell)).
  { unfold g'. rewrite grid_get_alter, decide_True by done. by rewrite Hcell. }
  destruct (get_best_paths_sorts (set_grid self g') xs ys g' (sorted_cell costs cell))
    as [Hall' _]; [done..|].
  change (paths (sorted_cell costs cell)) with sorted in Hall'.
  pose proof (list_sort_Permutation (negb costs) l) as Hperm. fold sorted in Hperm.
  pose proof (list_sort_sorted (negb costs) l) as Hsorted. fold sorted in Hsorted.
  pose proof (best_prefix_extremal costs l) as Hprefix. fold sorted in Hprefix.
  destruct (best_prefix_take sorted) as (k & Hk & Hkpos).
  assert (Hsplit : filter (extremal costs l) l ++ drop k sorted = sorted).
  { by rewrite <-Hprefix, Hk, take_drop. }
  assert (Hrest : filter (extremal costs l) (drop k sorted) = []).
  { assert (Hlen : length (filter (extremal costs l) sorted)
                   = length (filter (extremal costs l) l)) by by rewrite Hperm.
    rewrite <-Hsplit, filter_app, length_app in Hlen at 1.
    rewrite filter_all in Hlen
      by (apply Forall_forall; intros p Hp; by apply list_elem_of_filter in Hp as [? _]).
    apply nil_length_inv. lia. }
  exists self, l, (filter (extremal costs l) l), (set_grid self g'), (drop k sorted).
  rewrite Hsplit. split_and!; try done.
  - clear -Hsorted. induction Hsorted as [|x l' Hl' IH Hx]; constructor; [done|].
    eapply Forall_impl; [exact Hx|]. intros y. apply sort_le_better_eq.
  - intros p q Hp Hq Hqp.
    apply list_elem_of_filter in Hp as [Hp _].
    apply (filter_nil_not_elem_of _ _ q Hrest); [|done].
    unfold extremal in *. eapply Forall_impl; [exact Hp|].
    intros z Hz. by eapply better_eq_trans.
  - intros Hne. rewrite <-Hprefix, Hk.
    assert (sorted <> []) as Hsne.
    { intros Hnil. rewrite Hnil in Hperm. by apply Permutation_nil_l in Hperm. }
    specialize (Hkpos Hsne). destruct sorted, k; try done; lia.
Qed.

End SortedAfterBest.

(** ** What the default scores select *)

Section DefaultOrder.
Context {num : Type} {NUM : Numeric num} {ORD : NumericOrder num}.
Context {elt : Type} `{Countable elt}.
Variable LOG_SCALED : bool.
Context {LAWS : DefaultScoreOrder LOG_SCALED num}.

Implicit Types (p q w : @ViterbiPath num elt) (self : @ViterbiAligner num elt _ _).

#[local] Instance cmp_preorder : CmpPreorder (@cmp num NUM).
Proof. split; [apply cmp_refl|apply cmp_antisym|apply cmp_le_trans]. Qed.

Lemma cmp_lt_trans (x y z : num) : cmp x y = Lt -> cmp y z = Lt -> cmp x z = Lt.
Proof.
  intros Hxy Hyz. destruct (cmp x z) eqn:Hxz; [|done|].
  - exfalso. apply (cmp_le_trans z x y).
    + by rewrite (cmp_antisym x z), Hxz.
    + congruence.
    + by rewrite (cmp_antisym y z), Hyz.
  - destruct (cmp_le_trans x y z); congruence.
Qed.

Lemma cmp_le_proper (x x' y y' : num) :
  cmp x x' = Eq -> cmp y y' = Eq -> cmp x y <> Gt <-> cmp x' y' <> Gt.
Proof.
  intros Hx Hy.
  assert (Hx' : cmp x' x = Eq) by by rewrite (cmp_antisym x x'), Hx.
  assert (Hy' : cmp y' y = Eq) by by rewrite (cmp_antisym y y'), Hy.
  split; intros Hle.
  - apply (cmp_le_trans x' x y'); [congruence|].
    apply (cmp_le_trans x y y'); [done|congruence].
  - apply (cmp_le_trans x x' y); [congruence|].
    apply (cmp_le_trans x' y' y); [done|congruence].
Qed.

Lemma bad_steps_lt_start n :
  cmp (bad_steps LOG_SCALED (S n) : num) (bad_steps LOG_SCALED 0) = Lt.
Proof.
  induction n as [|n IH]; [apply bad_start|].
  apply cmp_lt_trans with (bad_steps LOG_SCALED 1); [|apply bad_start].
  change (bad_steps LOG_SCALED (S (S n)) : num)
    with (DEFAULT_SCORE_COMBINATION LOG_SCALED (bad_steps LOG_SCALED (S n) : num)
            (DEFAULT_BAD_SCORE LOG_SCALED)).
  change (bad_steps LOG_SCALED 1 : num)
    with (DEFAULT_SCORE_COMBINATION LOG_SCALED (bad_steps LOG_SCALED 0 : num)
            (DEFAULT_BAD_SCORE LOG_SCALED)).
  by rewrite bad_step_cmp.
Qed.

(** More bad moves give a smaller score. *)
Lemma bad_steps_cmp j k :
  cmp (bad_steps LOG_SCALED j : num) (bad_steps LOG_SCALED k) = (k ?= j).
Proof.
  revert k. induction j as [|j IH]; intros [|k].
  - apply cmp_refl.
  - by rewrite (cmp_antisym (bad_steps LOG_SCALED (S k)) (bad_steps LOG_SCALED 0)),
      bad_steps_lt_start.
  - apply bad_steps_lt_start.
  - change (bad_steps LOG_SCALED (S j) : num)
      with (DEFAULT_SCORE_COMBINATION LOG_SCALED (bad_steps LOG_SCALED j : num)
              (DEFAULT_BAD_SCORE LOG_SCALED)).
    change (bad_steps LOG_SCALED (S k) : num)
      with (DEFAULT_SCORE_COMBINATION LOG_SCALED (bad_steps LOG_SCALED k : num)
              (DEFAULT_BAD_SCORE LOG_SCALED)).
    rewrite bad_step_cmp, IH. done.
Qed.

Lemma indels_snoc (l : list (option elt * option elt)) e :
  indels (l ++ [e]) = indels l + (if is_indel e then 1 else 0).
Proof.
  unfold indels. rewrite List.filter_app, length_app. simpl.
  by destruct (is_indel e).
Qed.

(** The entry of a move holds a None unless the move is diagonal. *)
Lemma is_indel_transition (xs ys : list elt) k r c r' c' :
  move_target k r c = (r', c') -> r' <= length xs -> c' <= length ys ->
  is_indel (transition (cell_ref xs ys r c) (cell_ref xs ys r' c'))
  = match k with Diag => false | _ => true end.
Proof.
  intros Htarget Hr Hc. unfold transition. simpl.
  unfold get_a_element, get_b_element. simpl.
  destruct k; simpl in Htarget; injection Htarget as <- <-; simpl;
    repeat case_bool_decide; try lia.
  - by destruct (xs !! r).
  - destruct (lookup_lt_is_Some_2 xs r) as [x Hx]; [lia|].
    destruct (lookup_lt_is_Some_2 ys c) as [y Hy]; [lia|]. by rewrite Hx, Hy.
Qed.

(** Under the default scores the score of a legal path is that of its
    number of insertions and deletions, and twice its length is the sum of
    its end's coordinates and that number. *)
Lemma legal_default self r c p :
  alignment_scores self = None ->
  legal LOG_SCALED self r c p ->
  cmp (score p) (bad_steps LOG_SCALED (indels (transitions (cells p)))) = Eq
  ∧ 2 * length (transitions (cells p)) = r + c + indels (transitions (cells p)).
Proof.
  intros Hnone.
  induction 1 as [|k r c r' c' p p' Hp [IHs IHl] Htarget Hr Hc Hext].
  { split; [apply cmp_refl|done]. }
  rewrite (extend_cells _ _ _ _ _ _ _ Hext).
  destruct (walk_last _ _ _ _ _ (legal_walk _ _ _ _ _ Hp)) as (l0 & Hl0 & _).
  rewrite Hl0 in IHs, IHl |- *.
  rewrite transitions_snoc, indels_snoc, length_app.
  rewrite (is_indel_transition _ _ k r c r' c' Htarget Hr Hc).
  unfold extend, move_score in Hext. rewrite Hnone in Hext. simpl in Hext.
  injection Hext as <-. simpl.
  destruct k; simpl in Htarget; injection Htarget as <- <-.
  - split; [|lia]. rewrite Nat.add_1_r.
    change (bad_steps LOG_SCALED (S ?n) : num)
      with (DEFAULT_SCORE_COMBINATION LOG_SCALED (bad_steps LOG_SCALED n : num)
              (DEFAULT_BAD_SCORE LOG_SCALED)).
    by rewrite bad_step_cmp.
  - split; [|lia]. rewrite Nat.add_0_r.
    apply (c_Eq_trans cmp _ (score p)); [apply good_step|done].
  - split; [|lia]. rewrite Nat.add_1_r.
    change (bad_steps LOG_SCALED (S ?n) : num)
      with (DEFAULT_SCORE_COMBINATION LOG_SCALED (bad_steps LOG_SCALED n : num)
              (DEFAULT_BAD_SCORE LOG_SCALED)).
    by rewrite bad_step_cmp.
Qed.

Lemma legal_indels_bounds self r c p :
  alignment_scores self = None ->
  legal LOG_SCALED self r c p ->
  r `max` c - r `min` c <= indels (transitions (cells p))
  ∧ indels (transitions (cells p)) <= r + c.
Proof.
  intros Hnone Hp.
  destruct (legal_default self r c p Hnone Hp) as [_ Hlen].
  pose proof (walk_length _ _ _ _ _ (legal_walk _ _ _ _ _ Hp)) as [Hlo Hhi].
  rewrite transitions_length in Hlen. lia.
Qed.

(** Of two legal paths the one with fewer insertions and deletions has
    the larger score. *)
Lemma default_better_eq self costs r c p r' c' q :
  alignment_scores self = None ->
  legal LOG_SCALED self r c p -> legal LOG_SCALED self r' c' q ->
  better_eq costs (score p) (score q)
  <-> if costs then indels (transitions (cells q)) <= indels (transitions (cells p))
      else indels (transitions (cells p)) <= indels (transitions (cells q)).
Proof.
  intros Hnone Hp Hq.
  destruct (legal_default self r c p Hnone Hp) as [Hsp _].
  destruct (legal_default self r' c' q Hnone Hq) as [Hsq _].
  unfold better_eq. destruct costs.
  - rewrite (cmp_le_proper _ _ _ _ Hsp Hsq), bad_steps_cmp. apply Nat.compare_le_iff.
  - rewrite (cmp_le_proper _ _ _ _ Hsq Hsp), bad_steps_cmp. apply Nat.compare_le_iff.
Qed.

Lemma legal_step_default self k r c r' c' p :
  alignment_scores self = None ->
  legal LOG_SCALED self r c p ->
  move_target k r c = (r', c') -> r' <= length (a self) -> c' <= length (b self) ->
  exists p', legal LOG_SCALED self r' c' p'
             ∧ indels (transitions (cells p'))
               = indels (transitions (cells p)) + match k with Diag => 0 | _ => 1 end.
Proof.
  intros Hnone Hp Htarget Hr Hc.
  destruct (extend LOG_SCALED self (cell_ref (a self) (b self) r c) k
              (cell_ref (a self) (b self) r' c') p) as [p'|] eqn:Hext.
  - exists p'. split; [by apply legal_move with k r c p|].
    rewrite (extend_cells _ _ _ _ _ _ _ Hext).
    destruct (walk_last _ _ _ _ _ (legal_walk _ _ _ _ _ Hp)) as (l0 & Hl0 & _).
    rewrite Hl0, transitions_snoc, indels_snoc.
    rewrite (is_indel_transition _ _ k r c r' c' Htarget Hr Hc). by destruct k.
  - unfold extend, move_score in Hext. by rewrite Hnone in Hext.
Qed.

(** A path with as few insertions and deletions as can be: diagonal moves
    first. *)
Lemma legal_fewest self r c :
  alignment_scores self = None ->
  r <= length (a self) -> c <= length (b self) ->
  exists p, legal LOG_SCALED self r c p
            ∧ indels (transitions (cells p)) = r `max` c - r `min` c.
Proof.
  intros Hnone. revert c. induction r as [|r IHr].
  - induction c as [|c IHc]; intros Hr Hc.
    + exists (startpath LOG_SCALED (a self) (b self)). split; [apply legal_start|done].
    + destruct IHc as (p & Hp & Hn); [lia..|].
      destruct (legal_step_default self Insert 0 c 0 (c + 1) p) as (p' & Hp' & Hn');
        [done..|lia|].
      exists p'. rewrite Nat.add_1_r in Hp'. split; [done|]. lia.
  - intros [|c] Hr Hc.
    + destruct (IHr 0) as (p & Hp & Hn); [lia..|].
      destruct (legal_step_default self Delete r 0 (r + 1) 0 p) as (p' & Hp' & Hn');
        [done..|lia|lia|].
      exists p'. rewrite Nat.add_1_r in Hp'. split; [done|]. lia.
    + destruct (IHr c) as (p & Hp & Hn); [lia..|].
      destruct (legal_step_default self Diag r c (r + 1) (c + 1) p) as (p' & Hp' & Hn');
        [done..|lia|lia|].
      exists p'. rewrite !Nat.add_1_r in Hp'. split; [done|]. lia.
Qed.

(** A path of insertions and deletions only. *)
Lemma legal_most self r c :
  alignment_scores self = None ->
  r <= length (a self) -> c <= length (b self) ->
  exists p, legal LOG_SCALED self r c p ∧ indels (transitions (cells p)) = r + c.
Proof.
  intros Hnone. induction r as [|r IHr].
  - induction c as [|c IHc]; intros Hr Hc.
    + exists (startpath LOG_SCALED (a self) (b self)). split; [apply legal_start|done].
    + destruct IHc as (p & Hp & Hn); [lia..|].
      destruct (legal_step_default self Insert 0 c 0 (c + 1) p) as (p' & Hp' & Hn');
        [done..|lia|].
      exists p'. rewrite Nat.add_1_r in Hp'. split; [done|]. lia.
  - intros Hr Hc. destruct IHr as (p & Hp & Hn); [lia..|].
    destruct (legal_step_default self Delete r c (r + 1) c p) as (p' & Hp' & Hn');
      [done..|lia|lia|].
    exists p'. rewrite Nat.add_1_r in Hp'. split; [done|]. lia.
Qed.


End DefaultOrder.

(** ** The queries end to end *)

Section Optimal.
Context {num : Type} {NUM : Numeric num} {ORD : NumericOrder num}.
Context {elt : Type} `{Countable elt}.
Variable LOG_SCALED : bool.

(** X14. [get_best_paths] after the sweep returns exactly the optimal
    complete alignments: the legal paths to the terminal cell whose score
    is at least as good as that of every legal path to the terminal cell. *)
Theorem X14_best_paths_are_the_optimal_legal_paths (xs ys : list elt) scores costs :
  exists self best self',
    ViterbiAligner_init LOG_SCALED xs ys scores costs true = Some self
    ∧ get_best_paths self = Some (best, self')
    ∧ forall p : @ViterbiPath num elt,
        p ∈ best <->
        legal LOG_SCALED self (length xs) (length ys) p
        ∧ forall q, legal LOG_SCALED self (length xs) (length ys) q ->
                    better_eq costs (score p) (score q).
Proof.
  destruct (sweep_result LOG_SCALED xs ys scores costs)
    as (self & g & Hinit & Ha & Hb & _ & Hcosts & Hg & [Hshape Hwalks] & Hpaths).
  assert (Hswept : swept LOG_SCALED self g).
  { split; [by rewrite Ha, Hb|done]. }
  destruct (shape_grid_get_is_Some _ _ _ (length xs) (length ys) Hshape)
    as [cell Hcell]; [lia..|].
  destruct (get_best_paths_sorts self xs ys g cell) as [_ Hbest]; [done..|].
  rewrite Hcosts in Hbest.
  eexists self, _, _. split_and!; [exact Hinit|exact Hbest|].
  intros p. rewrite list_elem_of_filter. unfold extremal. rewrite Forall_forall.
  split.
  - intros [Hext Hp]. split.
    + by apply (stored_legal LOG_SCALED self g Hswept _ _ cell).
    + intros q Hq. apply Hext.
      by apply (legal_stored LOG_SCALED self g Hswept (length xs) (length ys) cell q).
  - intros [Hp Hext]. split.
    + intros q Hq. apply Hext.
      by apply (stored_legal LOG_SCALED self g Hswept _ _ cell).
    + by apply (legal_stored LOG_SCALED self g Hswept (length xs) (length ys) cell p).
Qed.

End Optimal.

(** ** Exchanging the sequences *)

Section Mirror.
Context {num : Type} {NUM : Numeric num}.
Context {elt : Type} `{Countable elt}.
Variable LOG_SCALED : bool.

Implicit Types (p q : @ViterbiPath num elt) (self : @ViterbiAligner num elt _ _).

Lemma mirror_cell_involutive (x : @CellRef elt) : mirror_cell (mirror_cell x) = x.
Proof. by destruct x. Qed.

Lemma mirror_involutive p : mirror (mirror p) = p.
Proof.
  destruct p as [l s]. unfold mirror. simpl. f_equal.
  rewrite <-list_fmap_compose. rewrite <-(list_fmap_id l) at 2.
  apply list_fmap_ext. intros _ x _. apply mirror_cell_involutive.
Qed.

Lemma mirror_cell_ref (xs ys : list elt) r c :
  mirror_cell (cell_ref xs ys r c) = cell_ref ys xs c r.
Proof. done. Qed.

(** Under the default scores the mirror image of a legal path is a legal
    path of the aligner of the exchanged sequences. *)
Lemma mirror_legal self self' r c p :
  alignment_scores self = None -> alignment_scores self' = None ->
  a self' = b self -> b self' = a self ->
  legal LOG_SCALED self r c p -> legal LOG_SCALED self' c r (mirror p).
Proof.
  intros Hnone Hnone' Ha Hb.
  induction 1 as [|k r c r' c' p p' Hp IH Htarget Hr Hc Hext].
  { unfold mirror, startpath. simpl. rewrite mirror_cell_ref, <-Ha, <-Hb.
    apply legal_start. }
  apply legal_move
    with (match k with Delete => Insert | Diag => Diag | Insert => Delete end) c r (mirror p).
  - done.
  - destruct k; simpl in *; by injection Htarget as <- <-.
  - by rewrite Ha.
  - by rewrite Hb.
  - unfold extend, move_score in *. rewrite Hnone in Hext. rewrite Hnone'.
    simpl in *. injection Hext as <-. unfold mirror. simpl.
    rewrite fmap_app. simpl. rewrite mirror_cell_ref, Ha, Hb. by destruct k.
Qed.

(** X15. Under the default scores the two sequences are treated alike:
    the paths the aligner of [b] and [a] stores in the cell (c,r) are the
    mirror images (rows and columns exchanged, same score) of the paths the
    aligner of [a] and [b] stores in the cell (r,c), up to their order in
    the list. *)
Theorem X15_exchanged_sequences_mirror_the_grid (xs ys : list elt) costs costs' :
  exists self g self' g',
    ViterbiAligner_init LOG_SCALED xs ys None costs true = Some self
    ∧ grid self = Some g
    ∧ ViterbiAligner_init LOG_SCALED ys xs None costs' true = Some self'
    ∧ grid self' = Some g'
    ∧ forall r c (cell : @ViterbiCell num elt),
        grid_get g r c = Some cell ->
        exists cell', grid_get g' c r = Some cell'
                      ∧ paths cell' ≡ₚ mirror <$> paths cell.
Proof.
  destruct (sweep_result LOG_SCALED xs ys None costs)
    as (self & g & Hinit & Ha & Hb & Hscores & _ & Hg & [Hshape _] & Hpaths).
  destruct (sweep_result LOG_SCALED ys xs None costs')
    as (self' & g' & Hinit' & Ha' & Hb' & Hscores' & _ & Hg' & [Hshape' _] & Hpaths').
  assert (Hswept : swept LOG_SCALED self g).
  { split; [by rewrite Ha, Hb|done]. }
  assert (Hswept' : swept LOG_SCALED self' g').
  { split; [by rewrite Ha', Hb'|done]. }
  exists self, g, self', g'. split_and!; [done..|].
  intros r c cell Hcell.
  destruct (shape_grid_get _ _ _ _ _ _ Hshape Hcell) as (_ & Hr & Hc).
  destruct (shape_grid_get_is_Some _ _ _ c r Hshape') as [cell' Hcell']; [lia..|].
  exists cell'. split; [done|].
  assert (Hinj : Inj (=) (=) (@mirror num elt)).
  { intros p q Hpq. by rewrite <-(mirror_involutive p), Hpq, mirror_involutive. }
  apply NoDup_Permutation.
  - eapply NoDup_fmap_1, (stored_NoDup LOG_SCALED self' g' Hswept' c r cell' Hcell').
  - apply NoDup_fmap_2; [done|].
    eapply NoDup_fmap_1, (stored_NoDup LOG_SCALED self g Hswept r c cell Hcell).
  - intros q. rewrite list_elem_of_fmap. split.
    + intros Hq. exists (mirror q). split; [by rewrite mirror_involutive|].
      apply (legal_stored LOG_SCALED self g Hswept r c cell (mirror q)); [|done].
      apply (mirror_legal self' self c r q); [done|done|congruence|congruence|].
      by apply (stored_legal LOG_SCALED self' g' Hswept' c r cell').
    + intros (p & -> & Hp).
      apply (legal_stored LOG_SCALED self' g' Hswept' c r cell' (mirror p)); [|done].
      apply (mirror_legal self self' r c p); [done|done|congruence|congruence|].
      by apply (stored_legal LOG_SCALED self g Hswept r c cell).
Qed.

End Mirror.

(** Exact rationals satisfy the order laws of the default scores, on both
    scales. *)
#[export] Instance Q_DefaultScoreOrder scaled : DefaultScoreOrder scaled Q.
Proof.
  split; destruct scaled; simpl.
  - intros s. apply Qeq_alt. apply Qplus_0_r.
  - intros s. apply Qeq_alt. apply Qmult_1_r.
  - reflexivity.
  - reflexivity.
  - intros s t. destruct (Qcompare_spec s t) as [Heq|Hlt|Hgt].
    + apply Qeq_alt. by rewrite Heq.
    + apply Qlt_alt. by apply Qplus_lt_l.
    + apply Qgt_alt. by apply Qplus_lt_l.
  - intros s t. destruct (Qcompare_spec s t) as [Heq|Hlt|Hgt].
    + apply Qeq_alt. by rewrite Heq.
    + apply Qlt_alt. by apply Qmult_lt_r.
    + apply Qgt_alt. by apply Qmult_lt_r.
Qed.

(** ** The theorems with hypotheses at concrete inputs *)

Lemma X5_no_indel_keys_witness :
  exists self g,
    ViterbiAligner_init (num:=Q) true ["a"%string] ["a"%string; "b"%string]
      (Some {[ Some "a"%string := {[ Some "a"%string := 1%Q ]} ]}) false true = Some self
    ∧ grid self = Some g
    ∧ (forall r c cell, grid_get g r c = Some cell -> r <> c -> paths cell = [])
    ∧ (length ["a"%string] <> length ["a"%string; "b"%string] -> get_all_paths self = Some []).
Proof.
  apply (X5_no_indel_keys_no_off_diagonal_paths true ["a"%string] ["a"%string; "b"%string]
           {[ Some "a"%string := {[ Some "a"%string := 1%Q ]} ]} false).
  - reflexivity.
  - intros x inner [_ <-]%lookup_singleton_Some. reflexivity.
Defined.

Lemma X10_best_paths_lead_witness :
  exists self all_paths best self' rest,
    ViterbiAligner_init (num:=Q) true ["a"%string] ["a"%string] None true true = Some self
    ∧ get_all_paths self = Some all_paths
    ∧ get_best_paths self = Some (best, self')
    ∧ get_all_paths self' = Some (best ++ rest)
    ∧ best ++ rest ≡ₚ all_paths
    ∧ StronglySorted (fun u v => better_eq true (score u) (score v)) (best ++ rest)
    ∧ (forall p q, p ∈ best -> q ∈ rest -> ~ better_eq true (score q) (score p))
    ∧ (all_paths <> [] -> best <> []).
Proof.
  exact (X10_best_paths_lead_the_sorted_list (ORD:=Q_NumericOrder) true
           ["a"%string] ["a"%string] None true).
Defined.


Lemma X14_best_paths_optimal_witness :
  exists self best self',
    ViterbiAligner_init (num:=Q) true ["a"%string] ["a"%string] None false true = Some self
    ∧ get_best_paths self = Some (best, self')
    ∧ forall p : ViterbiPath,
        p ∈ best <->
        legal true self 1 1 p
        ∧ forall q, legal true self 1 1 q -> better_eq false (score p) (score q).
Proof.
  exact (X14_best_paths_are_the_optimal_legal_paths (ORD:=Q_NumericOrder) true
           ["a"%string] ["a"%string] None false).
Defined.
